(** * aiokafka: the range partition assignor and the legacy record batch codec

    A shallow embedding of [aiokafka/coordinator/assignors/range.py]
    ([RangePartitionAssignor.assign]) and a model of the legacy record
    batch builder and reader exercised by [tests/record/test_legacy.py]. *)

From Stdlib Require Import ZArith Lia List Ascii String.
From Stdlib.Strings Require Import Byte.
From stdpp Require Import base option list sorting gmap strings.

Local Open Scope nat_scope.

(** ** Python's rich comparison, as far as [sorted] and [list.sort] use it *)

(** Python orders [str] by code point, [int] numerically, and [list] and
    [tuple] lexicographically.  [sorted] only ever asks [x < y].  A [string]
    here is the UTF-8 encoding of the Python string, and the byte-wise order
    of UTF-8 is the code point order. *)
Class Ord (A : Type) := cmp : A → A → comparison.
Global Hint Mode Ord ! : typeclass_instances.

Class OrdLaws (A : Type) `{Ord A} := {
  cmp_eq_iff : ∀ x y : A, cmp x y = Eq ↔ x = y;
  cmp_antisym : ∀ x y : A, cmp y x = CompOpp (cmp x y);
  cmp_lt_trans : ∀ x y z : A, cmp x y = Lt → cmp y z = Lt → cmp x z = Lt
}.

Definition py_lt `{Ord A} (x y : A) : bool :=
  match cmp x y with Lt => true | _ => false end.

Global Instance str_ord : Ord string := String.compare.
Global Instance int_ord : Ord Z := Z.compare.

Fixpoint list_cmp `{Ord A} (l1 l2 : list A) : comparison :=
  match l1, l2 with
  | [], [] => Eq
  | [], _ :: _ => Lt
  | _ :: _, [] => Gt
  | x :: l1', y :: l2' =>
      match cmp x y with
      | Eq => list_cmp l1' l2'
      | c => c
      end
  end.
Global Instance list_ord `{Ord A} : Ord (list A) := list_cmp.

Definition tuple_cmp `{Ord A, Ord B} (p q : A * B) : comparison :=
  match cmp p.1 q.1 with
  | Eq => cmp p.2 q.2
  | c => c
  end.
Global Instance tuple_ord `{Ord A, Ord B} : Ord (A * B) := tuple_cmp.

(** [sorted(l)]: a stable sort that compares with [<] only.  The element
    [x] goes in front of the first [y] that is not smaller than it. *)
Fixpoint insort `{Ord A} (x : A) (l : list A) : list A :=
  match l with
  | [] => [x]
  | y :: l' => if py_lt y x then y :: insort x l' else x :: l
  end.

Definition sorted `{Ord A} (l : list A) : list A := foldr insort [] l.

(** [not (y < x)], the order in which [sorted] leaves its elements. *)
Definition py_le `{Ord A} (x y : A) : Prop := cmp y x ≠ Lt.

(** ** Insertion-ordered dictionaries *)

(** A Python [dict] keeps its keys in insertion order and iterates in that
    order; assigning to an existing key keeps the key's position. *)
Definition dict (K V : Type) : Type := list (K * V).

Section dict.
Context {K V : Type} `{EqDecision K}.

Fixpoint dict_get (d : dict K V) (k : K) : option V :=
  match d with
  | [] => None
  | (k', v) :: d' => if decide (k' = k) then Some v else dict_get d' k
  end.

Fixpoint dict_set (d : dict K V) (k : K) (v : V) : dict K V :=
  match d with
  | [] => [(k, v)]
  | (k', v') :: d' =>
      if decide (k' = k) then (k, v) :: d' else (k', v') :: dict_set d' k v
  end.

(** [d[k]] on a [collections.defaultdict]: the stored value, or the
    default of the factory when the key is missing. *)
Definition defaultdict_get (dflt : V) (d : dict K V) (k : K) : V :=
  default dflt (dict_get d k).

Definition keys (d : dict K V) : list K := d.*1.
Definition items (d : dict K V) : list (K * V) := d.
End dict.

(** [l[a:b]] for [0 <= a] and [0 <= b]; a slice never raises and is cut
    at the end of the list. *)
Definition slice {A} (l : list A) (a b : nat) : list A := take (b - a) (drop a l).

(** [enumerate(l)] *)
Definition enumerate {A} (l : list A) : list (nat * A) := zip (seq 0 (length l)) l.

(** [a // b] and [a % b] on non-negative integers raise [ZeroDivisionError]
    when [b] is zero. *)
Definition floordiv (a b : nat) : option nat :=
  if decide (b = 0) then None else Some (a / b).
Definition pymod (a b : nat) : option nat :=
  if decide (b = 0) then None else Some (a mod b).

Module RangePartitionAssignor.

(** Modelled from the spec: [ConsumerProtocolMemberMetadata] is declared
    in [aiokafka/coordinator/protocol.py]: a protocol version, the
    subscribed topic names in the order [for topic in
    metadata.subscription] visits them, and opaque user data. *)
Record ConsumerProtocolMemberMetadata := {
  version : Z;
  subscription : list string;
  user_data : list byte
}.

(** Modelled from the spec: [ConsumerProtocolMemberAssignment] is declared
    in [aiokafka/coordinator/protocol.py]: a protocol version, an ordered
    sequence of (topic, partitions) pairs, and opaque user data. *)
Record ConsumerProtocolMemberAssignment := {
  a_version : Z;
  assignment : list (string * list Z);
  a_user_data : list byte
}.

(** Modelled from the spec: [ClusterMetadata] is declared in
    [aiokafka/cluster.py]; [partitions_for_topic] gives the set of
    partition ids known for a topic, or [None]. *)
Definition ClusterMetadata : Type := gmap string (gset Z).
Definition partitions_for_topic (cluster : ClusterMetadata) (topic : string)
  : option (gset Z) := cluster !! topic.

Definition name : string := "range".
Definition cls_version : Z := 0.

(** Lines 42-45. *)
Definition consumers_per_topic
    (members : dict string ConsumerProtocolMemberMetadata)
  : dict string (list string) :=
  foldl (λ cpt '(member, metadata),
           foldl (λ cpt topic,
                    dict_set cpt topic (defaultdict_get [] cpt topic ++ [member]))
                 cpt (subscription metadata))
        [] (items members).

(** Lines 61-67: the body of the loop over [enumerate(consumers_for_topic)]. *)
Definition assign_member (topic : string) (partitions_list : list Z)
    (partitions_per_consumer consumers_with_extra : nat)
    (assignment : dict string (dict string (list Z))) (im : nat * string)
  : dict string (dict string (list Z)) :=
  let '(i, member) := im in
  let start := partitions_per_consumer * i in
  let start := start + min i consumers_with_extra in
  let length := partitions_per_consumer in
  let length := if negb (consumers_with_extra <? i + 1) then length + 1 else length in
  dict_set assignment member
    (dict_set (defaultdict_get [] assignment member) topic
       (slice partitions_list start (start + length))).

(** Lines 50-67: the body of the loop over [consumers_per_topic.items()].
    [None] stands for the [ZeroDivisionError] of lines 58 and 59.  Line 56
    sorts the list held by [consumers_per_topic] in place; the dictionary
    is not read again for this topic, so the sorted list is a local value
    here. *)
Definition assign_topic (cluster : ClusterMetadata)
    (assignment : dict string (dict string (list Z)))
    (item : string * list string)
  : option (dict string (dict string (list Z))) :=
  let '(topic, consumers_for_topic) := item in
  match partitions_for_topic cluster topic with
  | None => Some assignment
  | Some partitions =>
      let partitions_list := sorted (elements partitions) in
      let consumers_for_topic := sorted consumers_for_topic in
      partitions_per_consumer ←
        floordiv (length partitions_list) (length consumers_for_topic);
      consumers_with_extra ←
        pymod (length partitions_list) (length consumers_for_topic);
      Some (foldl (assign_member topic partitions_list
                     partitions_per_consumer consumers_with_extra)
                  assignment (enumerate consumers_for_topic))
  end.

(** Lines 69-73.  Reading [assignment[member_id]] may add an empty entry
    to the [defaultdict]; nothing reads [assignment] afterwards. *)
Definition protocol_assignment
    (members : dict string ConsumerProtocolMemberMetadata)
    (assignment : dict string (dict string (list Z)))
  : dict string ConsumerProtocolMemberAssignment :=
  foldl (λ pa member_id,
           dict_set pa member_id
             {| a_version := cls_version;
                assignment := sorted (items (defaultdict_get [] assignment member_id));
                a_user_data := [] |})
        [] (keys members).

(** [RangePartitionAssignor.assign]; [None] is a raised exception. *)
Definition assign (cluster : ClusterMetadata)
    (members : dict string ConsumerProtocolMemberMetadata)
  : option (dict string ConsumerProtocolMemberAssignment) :=
  assignment ← foldl (λ acc item, a ← acc; assign_topic cluster a item)
                     (Some []) (items (consumers_per_topic members));
  Some (protocol_assignment members assignment).

(** [RangePartitionAssignor.metadata] *)
Definition metadata (topics : list string) : ConsumerProtocolMemberMetadata :=
  {| version := cls_version; subscription := topics; user_data := [] |}.

End RangePartitionAssignor.

Import RangePartitionAssignor.

(** ** Definitions for stating the properties of the assignor *)

(** The member id once for every time [topic] occurs in the subscription. *)
Definition occurrences (topic : string)
    (entry : string * ConsumerProtocolMemberMetadata) : list string :=
  (λ _, entry.1) <$> filter (λ t, t = topic) (subscription entry.2).

(** The consumers of [topic], in the order the members are visited. *)
Definition subscribers (topic : string)
    (members : dict string ConsumerProtocolMemberMetadata) : list string :=
  members ≫= occurrences topic.

(** Member [m] takes part with a subscription that names [topic]. *)
Definition subscribed (members : dict string ConsumerProtocolMemberMetadata)
    (m topic : string) : Prop :=
  ∃ md, (m, md) ∈ members ∧ topic ∈ subscription md.

(** Line 45: [consumers_per_topic[topic].append(member)]. *)
Definition add_consumer (member : string) (cpt : dict string (list string))
    (topic : string) : dict string (list string) :=
  dict_set cpt topic (defaultdict_get [] cpt topic ++ [member]).

(** The input is a dictionary, and each subscription is a set. *)
Definition members_wf (members : dict string ConsumerProtocolMemberMetadata) : Prop :=
  NoDup (keys members) ∧ Forall (λ entry, NoDup (subscription entry.2)) members.

(** The slice that line 67 stores for the consumer at index [i] of
    [n_consumers], lines 58-66 evaluated. *)
Definition range_of (partitions_list : list Z) (n_consumers i : nat) : list Z :=
  let partitions_per_consumer := length partitions_list / n_consumers in
  let consumers_with_extra := length partitions_list mod n_consumers in
  let start := partitions_per_consumer * i + min i consumers_with_extra in
  slice partitions_list start
    (start + (if negb (consumers_with_extra <? i + 1)
              then partitions_per_consumer + 1 else partitions_per_consumer)).

(** The index of the last occurrence of [m] in an enumerated list: a later
    assignment to [assignment[member][topic]] overwrites an earlier one. *)
Fixpoint last_index (m : string) (l : list (nat * string)) : option nat :=
  match l with
  | [] => None
  | (i, x) :: l' =>
      match last_index m l' with
      | Some j => Some j
      | None => if decide (x = m) then Some i else None
      end
  end.

(** What the loop body stores in [assignment[m][topic]] for a topic with
    the consumers [cs], if anything. *)
Definition topic_entry (cluster : ClusterMetadata) (topic : string)
    (cs : list string) (m : string) : option (list Z) :=
  partitions ← partitions_for_topic cluster topic;
  i ← last_index m (enumerate (sorted cs));
  Some (range_of (sorted (elements partitions)) (length (sorted cs)) i).

(** [assignment[m][t]], if both keys are there. *)
Definition lookup2 (a : dict string (dict string (list Z))) (m t : string)
  : option (list Z) := dict_get (defaultdict_get [] a m) t.

(** Every [assignment[m]] is a dictionary: no topic is a key twice. *)
Definition inner_wf (a : dict string (dict string (list Z))) : Prop :=
  Forall (λ kv, NoDup (keys kv.2)) a.

(** The value lines 71-73 build for the member [m]. *)
Definition member_assignment (a : dict string (dict string (list Z))) (m : string)
  : ConsumerProtocolMemberAssignment :=
  {| a_version := cls_version;
     assignment := sorted (items (defaultdict_get [] a m));
     a_user_data := [] |}.

(** The partitions of [topic] in the result [r] for member [m]: nothing
    when the member or the topic has no entry. *)
Definition assigned (r : dict string ConsumerProtocolMemberAssignment)
    (m topic : string) : list Z :=
  match dict_get r m with
  | Some res => default [] (dict_get (assignment res) topic)
  | None => []
  end.

(** Lines 62-63 and 64-66 as functions of the partition count [P], the
    consumer count [M] and the index [i]. *)
Definition range_start (P M i : nat) : nat := P / M * i + min i (P mod M).
Definition range_length (P M i : nat) : nat :=
  if negb (P mod M <? i + 1) then P / M + 1 else P / M.

(** Two inputs hold the same members: the entries of one are those of the
    other in another order, each with the same member id and the same
    subscribed topics, possibly listed in another order. *)
Definition same_entry (x y : string * ConsumerProtocolMemberMetadata) : Prop :=
  x.1 = y.1 ∧ subscription x.2 ≡ₚ subscription y.2.
Definition same_members (ms1 ms2 : dict string ConsumerProtocolMemberMetadata) : Prop :=
  ∃ ms, ms1 ≡ₚ ms ∧ Forall2 same_entry ms ms2.

(** The subscription of every member without [topic]. *)
Definition unsubscribe (topic : string)
    (members : dict string ConsumerProtocolMemberMetadata)
  : dict string ConsumerProtocolMemberMetadata :=
  (λ entry, (entry.1, {| version := version entry.2;
                         subscription := filter (λ t, t ≠ topic) (subscription entry.2);
                         user_data := user_data entry.2 |})) <$> members.

(** The pairs of a member's result are in strictly ascending topic order. *)
Definition topic_lt (x y : string * list Z) : Prop := cmp x.1 y.1 = Lt.

(** ** Concrete inputs *)

Local Open Scope string_scope.
Local Open Scope Z_scope.

(** The example of the class docstring: two consumers, two topics with
    three partitions each. *)
Definition docstring_cluster : ClusterMetadata :=
  {[ "t0" := {[0; 1; 2]}; "t1" := {[0; 1; 2]} ]}.
Definition docstring_members : dict string ConsumerProtocolMemberMetadata :=
  [("C1", metadata ["t0"; "t1"]); ("C0", metadata ["t1"; "t0"])].
Definition docstring_members' : dict string ConsumerProtocolMemberMetadata :=
  [("C0", metadata ["t0"; "t1"]); ("C1", metadata ["t0"; "t1"])].

(** What [assign] returns for the example of the docstring. *)
Definition docstring_result : dict string ConsumerProtocolMemberAssignment :=
  [("C1", {| a_version := 0; assignment := [("t0", [2]); ("t1", [2])];
             a_user_data := [] |});
   ("C0", {| a_version := 0; assignment := [("t0", [0; 1]); ("t1", [0; 1])];
             a_user_data := [] |})].

(** Another round: topic [t0] as in the docstring, more partitions of
    [t1], and a third consumer that subscribes to [t1] only. *)
Definition wider_cluster : ClusterMetadata :=
  {[ "t0" := {[0; 1; 2]}; "t1" := {[0; 1; 2; 3; 4]} ]}.
Definition wider_members : dict string ConsumerProtocolMemberMetadata :=
  [("C2", metadata ["t1"]); ("C0", metadata ["t0"; "t1"]); ("C1", metadata ["t0"])].

(** A member that sends user data, and a topic the cluster does not know. *)
Definition user_data_members : dict string ConsumerProtocolMemberMetadata :=
  [("C0", {| version := 0; subscription := ["t0"; "gone"]; user_data := [Byte.x78] |})].

(** One partition and two consumers. *)
Definition small_cluster : ClusterMetadata := {[ "t" := {[0]} ]}.
Definition small_members : dict string ConsumerProtocolMemberMetadata :=
  [("A", metadata ["t"]); ("B", metadata ["t"])].

Local Close Scope Z_scope.
Local Close Scope string_scope.

(** * The legacy record batch codec *)

(** [aiokafka/record/legacy_records.py] is not among the sources; the
    module below models [LegacyRecordBatchBuilder] and [LegacyRecordBatch]
    from the specification and from what [tests/record/test_legacy.py]
    fixes: the field offsets, the buffer lengths and the checksums. *)
Module LegacyRecords.

Local Open Scope Z_scope.

(** A Python [bytes] or [bytearray] value. *)
Definition bytes : Type := list byte.

(** A byte as the integer from 0 to 255, and back. *)
Definition Z_of_byte (b : byte) : Z := Z.of_N (Byte.to_N b).
Definition byte_of_Z (z : Z) : byte :=
  default Byte.x00 (Byte.of_N (Z.to_N (z mod 256))).

(** Modelled from the spec: the fixed-width fields of the layout, written
    as [struct.pack] writes a big-endian two's complement integer of [w]
    bytes; the field holds the value modulo [2^(8w)]. *)
Fixpoint pack_be (w : nat) (z : Z) : bytes :=
  match w with
  | O => []
  | S w' => byte_of_Z (Z.shiftr z (8 * Z.of_nat w')) :: pack_be w' z
  end.

(** Modelled from the spec: reading a fixed-width field, as
    [struct.unpack] reads a big-endian integer, unsigned and signed. *)
Definition unpack_ube (bs : bytes) : Z :=
  foldl (λ acc b, acc * 256 + Z_of_byte b) 0 bs.
Definition unpack_be (bs : bytes) : Z :=
  let u := unpack_ube bs in
  let w := 8 * Z.of_nat (length bs) in
  if u <? 2 ^ (w - 1) then u else u - 2 ^ w.

(** Modelled from the spec: the record checksum is the CRC-32 of the
    byte layout's [crc32] field: reflected polynomial [0xEDB88320], initial
    value and final xor [0xFFFFFFFF], as [zlib.crc32] computes it. *)
Definition crc32_bit (c : Z) : Z :=
  if Z.testbit c 0 then Z.lxor (Z.shiftr c 1) 0xEDB88320 else Z.shiftr c 1.
Definition crc32_byte (crc : Z) (b : byte) : Z :=
  Nat.iter 8 crc32_bit (Z.lxor crc (Z_of_byte b)).
Definition crc32 (data : bytes) : Z :=
  Z.lxor (foldl crc32_byte 0xFFFFFFFF data) 0xFFFFFFFF.

(** Modelled from the spec: the compression codecs are library code; a
    codec number selects one.  [0] is no compression; the tests name gzip,
    snappy and lz4. *)
Class Codec := {
  compress : Z → bytes → bytes;
  decompress : Z → bytes → option bytes
}.
Class CodecLaws `{Codec} :=
  decompress_compress : ∀ c data, decompress c (compress c data) = Some data.

Definition CODEC_MASK : Z := 0x07.
Definition TIMESTAMP_TYPE_MASK : Z := 0x08.
Definition CODEC_GZIP : Z := 1.
Definition CODEC_SNAPPY : Z := 2.
Definition CODEC_LZ4 : Z := 3.

(** Modelled from the spec: the byte layout of a legacy record,
    [[offset][length][crc32][magic][attributes][timestamp (v1 only)]
    [key length + key][value length + value]], with the field widths that
    [ATTRIBUTES_OFFSET = 17] and [TIMESTAMP_OFFSET = 18] of the tests fix:
    8 bytes of offset, 4 of length, 4 of checksum, 1 of magic, 1 of
    attributes, 8 of timestamp, 4 for each length; an absent key or value
    has the length [-1]. *)
Definition LOG_OVERHEAD : Z := 12.
Definition record_overhead (magic : Z) : Z := if magic =? 0 then 14 else 22.

Definition encode_bytes (b : option bytes) : bytes :=
  match b with
  | None => pack_be 4 (-1)
  | Some bs => pack_be 4 (Z.of_nat (length bs)) ++ bs
  end.

(** Modelled from the spec: the checksummed part of a record, the full
    message body after the [crc32] field. *)
Definition encode_body (magic attributes timestamp : Z) (key value : option bytes)
  : bytes :=
  pack_be 1 magic ++ pack_be 1 attributes
  ++ (if magic =? 0 then [] else pack_be 8 timestamp)
  ++ encode_bytes key ++ encode_bytes value.

Definition encode_msg (magic offset attributes timestamp : Z)
    (key value : option bytes) : bytes * Z :=
  let body := encode_body magic attributes timestamp key value in
  let crc := crc32 body in
  (pack_be 8 offset ++ pack_be 4 (4 + Z.of_nat (length body))
   ++ pack_be 4 crc ++ body, crc).

Definition bytes_size (b : option bytes) : Z :=
  match b with None => 0 | Some bs => Z.of_nat (length bs) end.

(** Modelled from the spec: [size_in_bytes], fixed header fields + key
    length + value length. *)
Definition size_in_bytes (magic : Z) (key value : option bytes) : Z :=
  LOG_OVERHEAD + record_overhead magic + bytes_size key + bytes_size value.

(** Modelled from the spec: the Builder, constructed with a format
    version, a compression codec and a maximum batch size; its buffer holds
    the records accepted so far. *)
Record LegacyRecordBatchBuilder := {
  magic : Z;
  compression_type : Z;
  batch_size : Z;
  buffer : bytes
}.

Definition new (magic compression_type batch_size : Z) : LegacyRecordBatchBuilder :=
  {| magic := magic; compression_type := compression_type;
     batch_size := batch_size; buffer := [] |}.

(** Modelled from the spec: [size()], the number of bytes written so far. *)
Definition size (b : LegacyRecordBatchBuilder) : Z := Z.of_nat (length (buffer b)).

(** Modelled from the spec: the per-append result. *)
Record LegacyRecordMetadata := {
  m_offset : Z;
  m_crc : Z;
  m_size : Z;
  m_timestamp : Z
}.

(** Modelled from the spec: the timestamp a record is encoded with: none
    ([-1], as the tests expect of the metadata) in format 0; in format 1
    the caller's, or the reading [now] of the encode-time clock when the
    caller passed none. *)
Definition resolve_timestamp (magic now : Z) (timestamp : option Z) : Z :=
  if magic =? 0 then -1 else default now timestamp.

(** Modelled from the spec: [append].  The first record of an empty batch
    is always accepted; a later one is rejected, with the builder left as
    it was, if accepting it would exceed the maximum batch size.  [None]
    is the absent result. *)
Definition append (now : Z) (b : LegacyRecordBatchBuilder)
    (offset : Z) (timestamp : option Z) (key value : option bytes)
  : option LegacyRecordMetadata * LegacyRecordBatchBuilder :=
  let timestamp := resolve_timestamp (magic b) now timestamp in
  let pos := size b in
  let sz := size_in_bytes (magic b) key value in
  if negb (pos =? 0) && (batch_size b <? pos + sz) then (None, b)
  else
    let '(msg, crc) := encode_msg (magic b) offset 0 timestamp key value in
    (Some {| m_offset := offset; m_crc := crc; m_size := sz; m_timestamp := timestamp |},
     {| magic := magic b; compression_type := compression_type b;
        batch_size := batch_size b; buffer := buffer b ++ msg |}).

(** Modelled from the spec: [build].  With a codec the concatenated
    records are compressed and wrapped as the value of one record whose
    attributes name the codec. *)
Definition build `{Codec} (b : LegacyRecordBatchBuilder) : bytes :=
  if compression_type b =? 0 then buffer b
  else (encode_msg (magic b) 0 (compression_type b) 0 None
          (Some (compress (compression_type b) (buffer b)))).1.

(** Modelled from the spec: a record as the Reader yields it. *)
Record LegacyRecord := {
  offset : Z;
  timestamp : option Z;
  timestamp_type : option Z;
  key : option bytes;
  value : option bytes;
  checksum : Z
}.

(** A record as it lies in the buffer: the fields and the checksummed bytes. *)
Record RawRecord := {
  r_offset : Z;
  r_crc : Z;
  r_attributes : Z;
  r_timestamp : Z;
  r_key : option bytes;
  r_value : option bytes;
  r_body : bytes
}.

(** [n] bytes off the front of a buffer, if it has that many. *)
Definition split_at (n : nat) (buf : bytes) : option (bytes * bytes) :=
  if decide (n ≤ length buf)%nat then Some (take n buf, drop n buf) else None.

Definition decode_bytes (buf : bytes) : option (option bytes * bytes) :=
  '(len, rest) ← split_at 4 buf;
  let n := unpack_be len in
  if n =? -1 then Some (None, rest)
  else if n <? 0 then None
  else '(bs, rest) ← split_at (Z.to_nat n) rest; Some (Some bs, rest).

Definition decode_body (magic : Z) (body : bytes)
  : option (Z * Z * option bytes * option bytes) :=
  '(_, rest) ← split_at 1 body;
  '(attributes, rest) ← split_at 1 rest;
  '(timestamp, rest) ← (if magic =? 0 then Some ([], rest) else split_at 8 rest);
  '(key, rest) ← decode_bytes rest;
  '(value, rest) ← decode_bytes rest;
  match rest with
  | [] => Some (unpack_be attributes, unpack_be timestamp, key, value)
  | _ => None
  end.

(** Modelled from the spec: one record off the front of a buffer; [None]
    is the decode error of a malformed or truncated buffer. *)
Definition decode_msg (magic : Z) (buf : bytes) : option (RawRecord * bytes) :=
  '(offset, rest) ← split_at 8 buf;
  '(len, rest) ← split_at 4 rest;
  let n := unpack_be len in
  if n <? 4 then None
  else
    '(msg, rest) ← split_at (Z.to_nat n) rest;
    let crc := unpack_ube (take 4 msg) in
    let body := drop 4 msg in
    '(attributes, timestamp, key, value) ← decode_body magic body;
    Some ({| r_offset := unpack_be offset; r_crc := crc;
             r_attributes := attributes; r_timestamp := timestamp;
             r_key := key; r_value := value; r_body := body |}, rest).

(** All records of a buffer.  Every record takes at least twelve bytes, so
    the length of the buffer bounds their number. *)
Fixpoint decode_msgs (fuel : nat) (magic : Z) (buf : bytes) : option (list RawRecord) :=
  match buf with
  | [] => Some []
  | _ =>
      match fuel with
      | O => None
      | S fuel' =>
          '(r, rest) ← decode_msg magic buf;
          rs ← decode_msgs fuel' magic rest;
          Some (r :: rs)
      end
  end.

(** Modelled from the spec: the record view.  The timestamp and its type
    exist in format 1 only;
    the records of a compressed batch whose wrapper has the log-append bit
    set carry the wrapper's timestamp. *)
Definition to_record (magic : Z) (wrapper : option RawRecord) (r : RawRecord)
  : LegacyRecord :=
  let log_append :=
    match wrapper with
    | Some w => negb (Z.land (r_attributes w) TIMESTAMP_TYPE_MASK =? 0)
    | None => negb (Z.land (r_attributes r) TIMESTAMP_TYPE_MASK =? 0)
    end in
  {| offset := r_offset r;
     timestamp := if magic =? 0 then None
                  else match wrapper with
                       | Some w => if log_append then Some (r_timestamp w)
                                   else Some (r_timestamp r)
                       | None => Some (r_timestamp r)
                       end;
     timestamp_type := if magic =? 0 then None
                       else Some (if log_append then 1 else 0);
     key := r_key r; value := r_value r; checksum := r_crc r |}.

(** Modelled from the spec: the Reader over a buffer and a format version.
    A batch whose first record names a codec is a compressed wrapper: its
    value is decompressed and parsed as an uncompressed batch. *)
Definition read `{Codec} (magic : Z) (buf : bytes) : option (list LegacyRecord) :=
  match buf with
  | [] => Some []
  | _ =>
      match decode_msg magic buf with
      | None => None
      | Some (first, _) =>
          let codec := Z.land (r_attributes first) CODEC_MASK in
          if codec =? 0 then
            match decode_msgs (length buf) magic buf with
            | None => None
            | Some rs => Some (to_record magic None <$> rs)
            end
          else
            match r_value first ≫= decompress codec with
            | None => None
            | Some data =>
                match decode_msgs (length data) magic data with
                | None => None
                | Some rs => Some (to_record magic (Some first) <$> rs)
                end
            end
      end
  end.

(** Modelled from the spec: validation on request, the stored checksum
    against the one recomputed over the record's bytes. *)
Definition validate_crc (r : RawRecord) : bool := r_crc r =? crc32 (r_body r).

(** No compression: both directions are the identity. *)
Definition no_codec : Codec := {| compress := λ _ d, d; decompress := λ _ d, Some d |}.

(** ** Definitions for stating the properties of the codec *)

Local Close Scope Z_scope.

(** One call of [append]: the clock reading at the call and the arguments. *)
Record AppendCall := {
  c_now : Z;
  c_offset : Z;
  c_timestamp : option Z;
  c_key : option bytes;
  c_value : option bytes
}.

Definition append_call (b : LegacyRecordBatchBuilder) (c : AppendCall)
  : option LegacyRecordMetadata * LegacyRecordBatchBuilder :=
  append (c_now c) b (c_offset c) (c_timestamp c) (c_key c) (c_value c).

(** A sequence of calls: the results and the builder after the last one. *)
Fixpoint append_all (b : LegacyRecordBatchBuilder) (calls : list AppendCall)
  : list (option LegacyRecordMetadata) * LegacyRecordBatchBuilder :=
  match calls with
  | [] => ([], b)
  | c :: calls' =>
      let '(m, b') := append_call b c in
      let '(ms, b'') := append_all b' calls' in
      (m :: ms, b'')
  end.

(** The calls that were accepted, each with its metadata. *)
Definition accepted (calls : list AppendCall) (results : list (option LegacyRecordMetadata))
  : list (AppendCall * LegacyRecordMetadata) :=
  omap (λ cm, (λ m, (cm.1, m)) <$> cm.2) (zip calls results).

(** The record the Reader is expected to yield for an accepted call: the
    offset, key and value of the call; in format 1 the timestamp of the
    call or, when the caller passed none, the clock reading; and the
    checksum recomputed over the bytes of these fields. *)
Definition expected_record (magic : Z) (c : AppendCall) : LegacyRecord :=
  {| offset := c_offset c;
     timestamp := if (magic =? 0)%Z then None
                  else Some (default (c_now c) (c_timestamp c));
     timestamp_type := if (magic =? 0)%Z then None else Some 0%Z;
     key := c_key c; value := c_value c;
     checksum := crc32 (encode_body magic 0
                          (resolve_timestamp magic (c_now c) (c_timestamp c))
                          (c_key c) (c_value c)) |}.

(** The metadata [append] returns for an accepted call. *)
Definition metadata_of (magic : Z) (c : AppendCall) : LegacyRecordMetadata :=
  let timestamp := resolve_timestamp magic (c_now c) (c_timestamp c) in
  {| m_offset := c_offset c;
     m_crc := crc32 (encode_body magic 0 timestamp (c_key c) (c_value c));
     m_size := size_in_bytes magic (c_key c) (c_value c);
     m_timestamp := timestamp |}.

(** The bytes [append] adds to the buffer for an accepted call. *)
Definition encode_call (magic : Z) (c : AppendCall) : bytes :=
  (encode_msg magic (c_offset c) 0
     (resolve_timestamp magic (c_now c) (c_timestamp c)) (c_key c) (c_value c)).1.

(** A signed 64-bit value. *)
Definition int64 (z : Z) : Prop := (- 2 ^ 63 ≤ z < 2 ^ 63)%Z.

(** The arguments fit the fields of the layout. *)
Definition call_in_range (c : AppendCall) : Prop :=
  int64 (c_offset c) ∧ int64 (default (c_now c) (c_timestamp c))
  ∧ (bytes_size (c_key c) + bytes_size (c_value c) < 2 ^ 31 - 22)%Z.

(** The record that lies in the buffer for the given fields. *)
Definition raw_record (magic offset attributes timestamp : Z)
    (key value : option bytes) : RawRecord :=
  let body := encode_body magic attributes timestamp key value in
  {| r_offset := offset; r_crc := crc32 body; r_attributes := attributes;
     r_timestamp := if (magic =? 0)%Z then unpack_be [] else timestamp;
     r_key := key; r_value := value; r_body := body |}.

(** The record that lies in the buffer for an accepted call. *)
Definition raw_call (magic : Z) (c : AppendCall) : RawRecord :=
  raw_record magic (c_offset c) 0
    (resolve_timestamp magic (c_now c) (c_timestamp c)) (c_key c) (c_value c).

(** The builder with another buffer. *)
Definition with_buffer (b : LegacyRecordBatchBuilder) (buf : bytes)
  : LegacyRecordBatchBuilder :=
  {| magic := magic b; compression_type := compression_type b;
     batch_size := batch_size b; buffer := buf |}.

(** The size-budget test of [append]. *)
Definition rejects (b : LegacyRecordBatchBuilder) (c : AppendCall) : bool :=
  negb (size b =? 0)%Z
  && (batch_size b <? size b + size_in_bytes (magic b) (c_key c) (c_value c))%Z.

Global Instance byte_eq_dec : EqDecision byte := Byte.byte_eq_dec.

(** A small lossless compressor to run the codec paths with: the data as
    (count, byte) pairs, with counts from 1 to 255. *)
Fixpoint rle_runs (data : bytes) : list (nat * byte) :=
  match data with
  | [] => []
  | b :: data' =>
      match rle_runs data' with
      | (n, b') :: runs =>
          if decide (b = b' ∧ n < 255) then (S n, b) :: runs
          else (1, b) :: (n, b') :: runs
      | [] => [(1, b)]
      end
  end.

(** The runs as bytes, and the data the runs stand for. *)
Definition rle_encode (runs : list (nat * byte)) : bytes :=
  runs ≫= λ run, [byte_of_Z (Z.of_nat run.1); run.2].

Definition rle_expand (runs : list (nat * byte)) : bytes :=
  runs ≫= λ run, replicate run.1 run.2.

(** The two directions of the codec. *)
Definition rle_compress (data : bytes) : bytes := rle_encode (rle_runs data).

Fixpoint rle_decompress (data : bytes) : option bytes :=
  match data with
  | [] => Some []
  | n :: b :: data' =>
      match rle_decompress data' with
      | Some out => Some (replicate (Z.to_nat (Z_of_byte n)) b ++ out)
      | None => None
      end
  | [_] => None
  end.

Definition rle_codec : Codec :=
  {| compress := λ _ data, rle_compress data;
     decompress := λ _ data, rle_decompress data |}.

(** What it means for the Reader's record to be the accepted call read
    back: the offset, key and value of the call; no timestamp in format 0
    and, in format 1, the timestamp of the call or the clock reading when
    the call had none; the stored checksum is that of the metadata and that
    recomputed over the bytes of the decoded fields. *)
Definition decoded_as (magic : Z) (cm : AppendCall * LegacyRecordMetadata)
    (rec : LegacyRecord) : Prop :=
  offset rec = c_offset cm.1 ∧ key rec = c_key cm.1 ∧ value rec = c_value cm.1
  ∧ timestamp rec = (if (magic =? 0)%Z then None
                     else Some (default (c_now cm.1) (c_timestamp cm.1)))
  ∧ m_offset cm.2 = c_offset cm.1
  ∧ checksum rec = m_crc cm.2
  ∧ checksum rec
    = crc32 (encode_body magic 0 (m_timestamp cm.2) (key rec) (value rec)).

(** Lines 57-58 of the test: where the attributes and the timestamp of
    the first record of a format 1 buffer lie. *)
Definition ATTRIBUTES_OFFSET : nat := 17.
Definition TIMESTAMP_OFFSET : nat := 18.

(** Lines 73-75 of the test, on a buffer and an expected timestamp:
    [buffer[ATTRIBUTES_OFFSET] |= TIMESTAMP_TYPE_MASK] and
    [struct.pack_into(">q", buffer, TIMESTAMP_OFFSET, expected_timestamp)].
    [None] is the [IndexError] or [struct.error] of a buffer too short. *)
Definition patch_log_append_time (buffer : bytes) (expected_timestamp : Z)
  : option bytes :=
  match buffer !! ATTRIBUTES_OFFSET with
  | None => None
  | Some b =>
      let buffer :=
        <[ATTRIBUTES_OFFSET := byte_of_Z (Z.lor (Z_of_byte b) TIMESTAMP_TYPE_MASK)]>
          buffer in
      if decide (TIMESTAMP_OFFSET + 8 ≤ length buffer) then
        Some (take TIMESTAMP_OFFSET buffer ++ pack_be 8 expected_timestamp
              ++ drop (TIMESTAMP_OFFSET + 8) buffer)
      else None
  end.

(** What the test expects of a record read from the patched buffer: the
    offset, key and value of the call, the patched timestamp, and the
    timestamp type 1 of log-append time. *)
Definition log_append_as (expected_timestamp : Z)
    (cm : AppendCall * LegacyRecordMetadata) (rec : LegacyRecord) : Prop :=
  offset rec = c_offset cm.1 ∧ key rec = c_key cm.1 ∧ value rec = c_value cm.1
  ∧ timestamp rec = Some expected_timestamp ∧ timestamp_type rec = Some 1%Z.

(** ** The fixtures of the tests *)

Local Open Scope Z_scope.

(** The byte strings of the tests. *)
Definition b_test : bytes := list_byte_of_string "test".
Definition b_Super : bytes := list_byte_of_string "Super".
Definition b_123 : bytes := list_byte_of_string "123".
Definition b_some_string : bytes := list_byte_of_string "some string".

(** The builder of [test_legacy_correct_metadata_response] after its append. *)
Definition fixture (now magic : Z) :=
  append now (new magic 0 (1024 * 1024)) 0 (Some 9999999) (Some b_test) (Some b_Super).

(** The checksum in the metadata of that append, and the checksums of the
    records read back from the built buffer. *)
Definition fixture_crc (now magic : Z) : option Z :=
  option_map m_crc (fixture now magic).1.
Definition fixture_read_crc (now magic : Z) : option (list Z) :=
  option_map (map checksum) (@read no_codec magic (@build no_codec (fixture now magic).2)).

(** [meta is not None] *)
Definition is_accepted (m : option LegacyRecordMetadata) : bool :=
  if m is Some _ then true else false.

(** Three appends: with and without timestamp, key and value. *)
Definition roundtrip_calls : list AppendCall :=
  [ {| c_now := 5; c_offset := 0; c_timestamp := Some 9999999;
       c_key := Some b_test; c_value := Some b_Super |};
    {| c_now := 6; c_offset := 1; c_timestamp := None;
       c_key := None; c_value := Some b_Super |};
    {| c_now := 7; c_offset := 2; c_timestamp := Some 9999999;
       c_key := Some b_test; c_value := None |} ].

(** The append of [test_legacy_batch_size_limit]: 700 bytes of value. *)
Definition limit_call (offset : Z) : AppendCall :=
  {| c_now := 5; c_offset := offset; c_timestamp := None;
     c_key := None; c_value := Some (replicate 700 "M"%byte) |}.

End LegacyRecords.

(** * Properties of the range partition assignor *)

(** ** The comparison laws *)

Section ord_laws.
Context `{OrdLaws A}.

Lemma cmp_refl (x : A) : cmp x x = Eq.
Proof. by apply cmp_eq_iff. Qed.

Lemma cmp_gt_lt (x y : A) : cmp x y = Gt ↔ cmp y x = Lt.
Proof. rewrite (cmp_antisym x y). destruct (cmp x y); simpl; split; congruence. Qed.

Global Instance py_le_total : Total (@py_le A _).
Proof.
  intros x y. unfold py_le. rewrite (cmp_antisym x y).
  destruct (cmp x y); simpl; [left | left | right]; congruence.
Qed.

Global Instance py_le_trans : Transitive (@py_le A _).
Proof.
  intros x y z Hxy Hyz Hzx. unfold py_le in *.
  destruct (cmp y x) eqn:E1; [| done |].
  - apply cmp_eq_iff in E1. by subst.
  - apply cmp_gt_lt in E1. apply Hyz. by apply (cmp_lt_trans _ x).
Qed.

Global Instance py_le_antisym : AntiSymm (=) (@py_le A _).
Proof.
  intros x y Hxy Hyx. unfold py_le in *.
  destruct (cmp x y) eqn:E; [by apply cmp_eq_iff | done |].
  by apply cmp_gt_lt in E.
Qed.

Lemma py_lt_false (x y : A) : py_lt y x = false ↔ py_le x y.
Proof. unfold py_lt, py_le. destruct (cmp y x); split; congruence. Qed.

Lemma py_lt_true (x y : A) : py_lt y x = true → py_le y x.
Proof.
  unfold py_lt, py_le. destruct (cmp y x) eqn:E; try done.
  intros _ E'. apply cmp_gt_lt in E'. congruence.
Qed.

Lemma insort_Permutation (x : A) l : insort x l ≡ₚ x :: l.
Proof.
  induction l as [|y l IH]; simpl; [done |].
  destruct (py_lt y x); [| done]. rewrite IH. apply Permutation_swap.
Qed.

Lemma sorted_Permutation (l : list A) : sorted l ≡ₚ l.
Proof.
  induction l as [|x l IH]; simpl; [done |].
  by rewrite insort_Permutation, IH.
Qed.

Lemma HdRel_insort (z x : A) l :
  py_le z x → HdRel py_le z l → HdRel py_le z (insort x l).
Proof.
  intros Hzx Hl. destruct l as [|y l]; simpl; [by constructor |].
  destruct (py_lt y x); constructor; [by inversion Hl | done].
Qed.

Lemma Sorted_insort (x : A) l : Sorted py_le l → Sorted py_le (insort x l).
Proof.
  induction 1 as [|y l Hs IH Hhd]; simpl; [by repeat constructor |].
  destruct (py_lt y x) eqn:E.
  - constructor; [done |]. apply HdRel_insort; [by apply py_lt_true | done].
  - apply py_lt_false in E. by repeat constructor.
Qed.

Lemma Sorted_sorted (l : list A) : Sorted py_le (sorted l).
Proof. induction l; simpl; [constructor | by apply Sorted_insort]. Qed.

(** The result of [sorted] depends on the elements only, not on their
    order in the argument. *)
Lemma sorted_proper (l1 l2 : list A) : l1 ≡ₚ l2 → sorted l1 = sorted l2.
Proof.
  intros Hp. apply (Sorted_unique py_le); [apply Sorted_sorted.. |].
  by rewrite !sorted_Permutation.
Qed.

Lemma sorted_id (l : list A) : Sorted py_le l → sorted l = l.
Proof.
  intros Hs. apply (Sorted_unique py_le);
    [apply Sorted_sorted | done | apply sorted_Permutation].
Qed.

Lemma length_sorted (l : list A) : length (sorted l) = length l.
Proof. by rewrite sorted_Permutation. Qed.

Lemma elem_of_sorted (x : A) l : x ∈ sorted l ↔ x ∈ l.
Proof. by rewrite sorted_Permutation. Qed.

Lemma NoDup_sorted (l : list A) : NoDup (sorted l) ↔ NoDup l.
Proof. by rewrite sorted_Permutation. Qed.
End ord_laws.

Lemma string_compare_lt_trans (x y z : string) :
  String.compare x y = Lt → String.compare y z = Lt → String.compare x z = Lt.
Proof.
  revert y z. induction x as [|a x IH]; intros [|b y] [|c z]; simpl; try done.
  unfold Ascii.compare.
  destruct (N.compare_spec (N_of_ascii a) (N_of_ascii b)) as [Hab|Hab|Hab]; try done;
  destruct (N.compare_spec (N_of_ascii b) (N_of_ascii c)) as [Hbc|Hbc|Hbc]; try done.
  - rewrite Hab, Hbc, N.compare_refl. apply IH.
  - rewrite Hab. intros _ _. by apply N.compare_lt_iff in Hbc as ->.
  - rewrite <- Hbc. intros _ _. by apply N.compare_lt_iff in Hab as ->.
  - intros _ _. assert (N_of_ascii a < N_of_ascii c)%N as Hac by lia.
    by apply N.compare_lt_iff in Hac as ->.
Qed.

Lemma string_compare_refl (x : string) : String.compare x x = Eq.
Proof.
  induction x as [|a x IH]; simpl; [done |].
  unfold Ascii.compare. by rewrite N.compare_refl.
Qed.

Global Instance str_ord_laws : OrdLaws string.
Proof.
  split.
  - intros x y. split; [apply String.compare_eq_iff |].
    intros ->. apply string_compare_refl.
  - intros x y. apply String.compare_antisym.
  - apply string_compare_lt_trans.
Qed.

Global Instance int_ord_laws : OrdLaws Z.
Proof.
  split.
  - apply Z.compare_eq_iff.
  - intros x y. apply Z.compare_antisym.
  - intros x y z. unfold cmp, int_ord. rewrite !Z.compare_lt_iff. lia.
Qed.

Global Instance list_ord_laws `{OrdLaws A} : OrdLaws (list A).
Proof.
  split.
  - unfold cmp, list_ord. intros l1. induction l1 as [|x l1 IH]; intros [|y l2]; simpl; try done.
    destruct (cmp x y) eqn:E.
    + apply cmp_eq_iff in E as ->. rewrite IH. split; congruence.
    + split; [done |]. intros [= -> _]. by rewrite cmp_refl in E.
    + split; [done |]. intros [= -> _]. by rewrite cmp_refl in E.
  - unfold cmp, list_ord. intros l1. induction l1 as [|x l1 IH]; intros [|y l2]; simpl; try done.
    rewrite (cmp_antisym x y). destruct (cmp x y); simpl; [apply IH | done | done].
  - unfold cmp, list_ord. intros l1.
    induction l1 as [|x l1 IH]; intros [|y l2] [|z l3]; simpl; try done.
    destruct (cmp x y) eqn:E1; [| | done]; destruct (cmp y z) eqn:E2; try done.
    + apply cmp_eq_iff in E1 as ->. rewrite E2. apply IH.
    + apply cmp_eq_iff in E1 as ->. by rewrite E2.
    + apply cmp_eq_iff in E2 as <-. by rewrite E1.
    + by rewrite (cmp_lt_trans x y z).
Qed.

Global Instance tuple_ord_laws `{OrdLaws A, OrdLaws B} : OrdLaws (A * B).
Proof.
  split.
  - intros [a1 b1] [a2 b2]. unfold cmp, tuple_ord, tuple_cmp. simpl.
    destruct (cmp a1 a2) eqn:E.
    + apply cmp_eq_iff in E as ->. rewrite cmp_eq_iff. split; congruence.
    + split; [done |]. intros [= -> _]. by rewrite cmp_refl in E.
    + split; [done |]. intros [= -> _]. by rewrite cmp_refl in E.
  - intros [a1 b1] [a2 b2]. unfold cmp, tuple_ord, tuple_cmp. simpl.
    rewrite (cmp_antisym a1 a2). destruct (cmp a1 a2); simpl; [apply cmp_antisym | done | done].
  - intros [a1 b1] [a2 b2] [a3 b3]. unfold cmp, tuple_ord, tuple_cmp. simpl.
    destruct (cmp a1 a2) eqn:E1; [| | done]; destruct (cmp a2 a3) eqn:E2; try done.
    + apply cmp_eq_iff in E1 as ->. rewrite E2. apply cmp_lt_trans.
    + apply cmp_eq_iff in E1 as ->. by rewrite E2.
    + apply cmp_eq_iff in E2 as <-. by rewrite E1.
    + by rewrite (cmp_lt_trans a1 a2 a3).
Qed.

(** ** Facts about insertion-ordered dictionaries *)

Section dict_facts.
Context {K V : Type} `{EqDecision K}.
Implicit Types (d : dict K V) (k : K) (v : V).

Lemma dict_get_set d k v k' :
  dict_get (dict_set d k v) k' = if decide (k = k') then Some v else dict_get d k'.
Proof.
  induction d as [|[k0 v0] d IH]; simpl.
  - by destruct (decide (k = k')).
  - destruct (decide (k0 = k)) as [->|Hne]; simpl.
    + by destruct (decide (k = k')).
    + rewrite IH. destruct (decide (k0 = k')) as [->|]; [| done].
      by rewrite decide_False.
Qed.

Lemma dict_get_None d k : dict_get d k = None ↔ k ∉ keys d.
Proof.
  unfold keys. induction d as [|[k0 v0] d IH]; simpl.
  - split; [intros _; apply not_elem_of_nil | done].
  - rewrite not_elem_of_cons. destruct (decide (k0 = k)) as [->|Hne].
    + split; [done | by intros [? _]].
    + rewrite IH. intuition congruence.
Qed.

Lemma elem_of_keys d k : k ∈ keys d ↔ is_Some (dict_get d k).
Proof.
  destruct (dict_get d k) as [v|] eqn:E.
  - split; [by eexists |]. intros _.
    destruct (decide (k ∈ keys d)) as [|Hnin]; [done |].
    apply dict_get_None in Hnin. congruence.
  - apply dict_get_None in E. split; [done | by intros [? ?]].
Qed.

Lemma dict_get_Some_elem d k v : dict_get d k = Some v → (k, v) ∈ d.
Proof.
  induction d as [|[k0 v0] d IH]; simpl; [done |].
  destruct (decide (k0 = k)) as [->|Hne]; intros Hg.
  - injection Hg as ->. by left.
  - right. by apply IH.
Qed.

Lemma elem_dict_get d k v : NoDup (keys d) → (k, v) ∈ d → dict_get d k = Some v.
Proof.
  unfold keys. induction d as [|[k0 v0] d IH]; simpl.
  - intros _ Hin. by apply elem_of_nil in Hin.
  - intros [Hnin Hnd]%NoDup_cons [Heq|Hin]%elem_of_cons.
    + injection Heq as -> ->. by rewrite decide_True.
    + rewrite decide_False; [by apply IH |].
      intros ->. apply Hnin. apply list_elem_of_fmap. by exists (k, v).
Qed.

Lemma dict_set_fresh d k v : k ∉ keys d → dict_set d k v = d ++ [(k, v)].
Proof.
  unfold keys. induction d as [|[k0 v0] d IH]; simpl; [done |].
  intros [Hne Hnin]%not_elem_of_cons.
  rewrite decide_False by done. by rewrite IH.
Qed.

Lemma elem_of_keys_dict_set d k v k' :
  k' ∈ keys (dict_set d k v) ↔ k' = k ∨ k' ∈ keys d.
Proof.
  unfold keys. induction d as [|[k0 v0] d IH]; simpl.
  - rewrite list_elem_of_singleton. split; [by left |].
    intros [?|Hin]; [done | by apply elem_of_nil in Hin].
  - destruct (decide (k0 = k)) as [->|Hne]; simpl.
    + rewrite !elem_of_cons. intuition congruence.
    + rewrite !elem_of_cons, IH. intuition congruence.
Qed.

Lemma NoDup_keys_dict_set d k v : NoDup (keys d) → NoDup (keys (dict_set d k v)).
Proof.
  unfold keys. induction d as [|[k0 v0] d IH]; simpl.
  - intros _. apply NoDup_singleton.
  - intros [Hnin Hnd]%NoDup_cons. destruct (decide (k0 = k)) as [->|Hne]; simpl.
    + by apply NoDup_cons.
    + apply NoDup_cons. split; [| by apply IH].
      intros [?|?]%(elem_of_keys_dict_set d k v k0); done.
Qed.

Lemma Forall_dict_set (P : K * V → Prop) d k v :
  Forall P d → P (k, v) → Forall P (dict_set d k v).
Proof.
  intros Hd Hkv. induction Hd as [|[k0 v0] d H0 Hd IH]; simpl.
  - by repeat constructor.
  - destruct (decide (k0 = k)); by constructor.
Qed.

Lemma Forall_dict_get (P : K * V → Prop) d k v :
  Forall P d → dict_get d k = Some v → P (k, v).
Proof.
  intros Hd Hg. apply dict_get_Some_elem in Hg.
  by apply (proj1 (Forall_forall P d) Hd).
Qed.

(** Two dictionaries with the same lookups hold the same items. *)
Lemma dict_Permutation d1 d2 :
  NoDup (keys d1) → NoDup (keys d2) →
  (∀ k, dict_get d1 k = dict_get d2 k) → d1 ≡ₚ d2.
Proof.
  intros Hn1 Hn2 Heq. apply NoDup_Permutation.
  - by apply (NoDup_fmap_1 fst).
  - by apply (NoDup_fmap_1 fst).
  - intros [k v]. split; intros Hin.
    + apply dict_get_Some_elem. rewrite <- Heq. by apply elem_dict_get.
    + apply dict_get_Some_elem. rewrite Heq. by apply elem_dict_get.
Qed.

Lemma dict_get_Permutation d1 d2 k :
  NoDup (keys d1) → d1 ≡ₚ d2 → dict_get d1 k = dict_get d2 k.
Proof.
  intros Hn1 Hp.
  assert (NoDup (keys d2)) as Hn2 by (unfold keys; by rewrite <- Hp).
  destruct (dict_get d1 k) as [v|] eqn:E1.
  - symmetry. apply elem_dict_get; [done |]. rewrite <- Hp.
    by apply dict_get_Some_elem.
  - symmetry. apply dict_get_None. apply dict_get_None in E1.
    unfold keys in *. by rewrite <- Hp.
Qed.

(** Filling a dictionary key by key, as [for k in ks: d[k] = f(k)] does. *)
Lemma foldl_dict_set_fresh (f : K → V) (ks : list K) d :
  NoDup ks → (∀ k, k ∈ ks → k ∉ keys d) →
  foldl (λ acc k, dict_set acc k (f k)) d ks = d ++ ((λ k, (k, f k)) <$> ks).
Proof.
  revert d. induction ks as [|k ks IH]; intros d Hnd Hfresh; simpl.
  - by rewrite app_nil_r.
  - apply NoDup_cons in Hnd as [Hk Hnd].
    rewrite IH, dict_set_fresh; [by rewrite <- app_assoc | | done |].
    + apply Hfresh. by left.
    + intros k' Hk' [->|Hin]%elem_of_keys_dict_set; [done |].
      by apply (Hfresh k'); [right |].
Qed.
End dict_facts.

(** ** Who is subscribed to a topic *)

Section consumers_per_topic_facts.
Implicit Types (cpt : dict string (list string)) (topic member : string).

Lemma add_consumers_get member (subs : list string) cpt topic :
  defaultdict_get [] (foldl (add_consumer member) cpt subs) topic
  = defaultdict_get [] cpt topic ++ ((λ _, member) <$> filter (λ t, t = topic) subs).
Proof.
  revert cpt. induction subs as [|t subs IH]; intros cpt; simpl.
  - by rewrite app_nil_r.
  - rewrite IH. unfold add_consumer, defaultdict_get.
    rewrite dict_get_set, filter_cons.
    destruct (decide (t = topic)) as [->|Hne]; simpl; [| done].
    by rewrite <- app_assoc.
Qed.

Lemma add_consumers_inv member (subs : list string) cpt :
  NoDup (keys cpt) ∧ Forall (λ kv, kv.2 ≠ []) cpt →
  NoDup (keys (foldl (add_consumer member) cpt subs))
  ∧ Forall (λ kv, kv.2 ≠ []) (foldl (add_consumer member) cpt subs).
Proof.
  revert cpt. induction subs as [|t subs IH]; intros cpt [Hnd Hne]; simpl; [done |].
  apply IH. unfold add_consumer. split.
  - by apply NoDup_keys_dict_set.
  - apply Forall_dict_set; [done |]. simpl. by destruct (defaultdict_get _ _ _).
Qed.

Lemma consumers_per_topic_get members topic :
  defaultdict_get [] (consumers_per_topic members) topic = subscribers topic members.
Proof.
  unfold consumers_per_topic, subscribers, items.
  enough (∀ cpt,
    defaultdict_get []
      (foldl (λ cpt '(member, metadata),
                foldl (add_consumer member) cpt (subscription metadata))
             cpt members) topic
    = defaultdict_get [] cpt topic ++ (members ≫= occurrences topic)) as Hgen
    by apply (Hgen []).
  induction members as [|[member md] members IH]; intros cpt; simpl.
  - by rewrite app_nil_r.
  - rewrite IH, add_consumers_get. by rewrite <- app_assoc.
Qed.

Lemma consumers_per_topic_inv members :
  NoDup (keys (consumers_per_topic members))
  ∧ Forall (λ kv, kv.2 ≠ []) (consumers_per_topic members).
Proof.
  unfold consumers_per_topic, items.
  enough (∀ cpt, NoDup (keys cpt) ∧ Forall (λ kv, kv.2 ≠ []) cpt →
    let cpt' := foldl (λ cpt '(member, metadata),
                         foldl (add_consumer member) cpt (subscription metadata))
                      cpt members in
    NoDup (keys cpt') ∧ Forall (λ kv, kv.2 ≠ []) cpt') as Hgen.
  { apply (Hgen []). split; [apply NoDup_nil_2 | constructor]. }
  induction members as [|[member md] members IH]; intros cpt Hinv; simpl; [done |].
  apply IH. by apply add_consumers_inv.
Qed.

Lemma consumers_per_topic_lookup members topic cs :
  dict_get (consumers_per_topic members) topic = Some cs →
  cs = subscribers topic members ∧ cs ≠ [].
Proof.
  intros Hg. split.
  - rewrite <- consumers_per_topic_get. unfold defaultdict_get. by rewrite Hg.
  - apply (Forall_dict_get (λ kv, kv.2 ≠ []) (consumers_per_topic members) topic cs);
      [| done].
    apply consumers_per_topic_inv.
Qed.

Lemma consumers_per_topic_lookup_None members topic :
  dict_get (consumers_per_topic members) topic = None →
  subscribers topic members = [].
Proof.
  intros Hg. rewrite <- consumers_per_topic_get. unfold defaultdict_get. by rewrite Hg.
Qed.

Lemma elem_of_occurrences m topic entry :
  m ∈ occurrences topic entry ↔ m = entry.1 ∧ topic ∈ subscription entry.2.
Proof.
  unfold occurrences. rewrite list_elem_of_fmap. split.
  - intros (t & -> & [-> Hin]%list_elem_of_filter). done.
  - intros [-> Hin]. exists topic. split; [done |]. by apply list_elem_of_filter.
Qed.

Lemma elem_of_subscribers members m topic :
  m ∈ subscribers topic members ↔ subscribed members m topic.
Proof.
  unfold subscribers, subscribed. rewrite list_elem_of_bind. split.
  - intros ([m' md] & [-> Hin]%elem_of_occurrences & Hmem). by exists md.
  - intros (md & Hmem & Hin). exists (m, md). split; [| done].
    by apply elem_of_occurrences.
Qed.

Lemma NoDup_occurrences topic entry :
  NoDup (subscription entry.2) → NoDup (occurrences topic entry).
Proof.
  unfold occurrences. intros Hnd.
  assert (∀ l : list string, NoDup l → length (filter (λ t, t = topic) l) ≤ 1) as Hlen.
  { induction 1 as [|t l Hnin Hl IH]; simpl; [lia |].
    rewrite filter_cons. destruct (decide (t = topic)) as [->|]; [| done].
    simpl. destruct (filter _ l) as [|t' l'] eqn:E; [simpl; lia |].
    assert (t' ∈ filter (λ t, t = topic) l) as [-> Hin]%list_elem_of_filter
      by (rewrite E; by left). done. }
  specialize (Hlen _ Hnd).
  destruct (filter _ _) as [|t [|t' l]]; simpl in *;
    [apply NoDup_nil_2 | apply NoDup_singleton | lia].
Qed.

Lemma NoDup_subscribers members topic :
  members_wf members → NoDup (subscribers topic members).
Proof.
  unfold members_wf, subscribers, keys. intros [Hk Hs].
  induction members as [|[m md] members IH]; simpl; [apply NoDup_nil_2 |].
  apply NoDup_cons in Hk as [Hm Hk]. apply Forall_cons in Hs as [Hmd Hs].
  apply NoDup_app. split_and!.
  - by apply NoDup_occurrences.
  - intros m' [-> _]%elem_of_occurrences (md' & Hin & _)%elem_of_subscribers.
    apply Hm. simpl. apply list_elem_of_fmap. by exists (m, md').
  - by apply IH.
Qed.
End consumers_per_topic_facts.

(** ** The loop over the topics *)

Section topic_loop_facts.
Implicit Types (a : dict string (dict string (list Z))) (m t topic : string).

Lemma inner_wf_get a m : inner_wf a → NoDup (keys (defaultdict_get [] a m)).
Proof.
  intros Hwf. unfold defaultdict_get.
  destruct (dict_get _ _) as [d|] eqn:E; simpl; [| apply NoDup_nil_2].
  apply (Forall_dict_get (λ kv, NoDup (keys kv.2)) a m d Hwf E).
Qed.

Lemma assign_member_lookup topic pl q r a i member m t :
  lookup2 (assign_member topic pl q r a (i, member)) m t
  = if decide (member = m ∧ topic = t)
    then Some (slice pl (q * i + min i r)
                 (q * i + min i r + (if negb (r <? i + 1) then q + 1 else q)))
    else lookup2 a m t.
Proof.
  unfold lookup2, assign_member, defaultdict_get. rewrite dict_get_set.
  destruct (decide (member = m)) as [->|Hm]; simpl.
  - rewrite dict_get_set. destruct (decide (topic = t)) as [->|Ht].
    + by rewrite decide_True.
    + rewrite decide_False; [done | by intros [_ ?]].
  - rewrite decide_False; [done | by intros [? _]].
Qed.

Lemma assign_member_wf topic pl q r a im :
  inner_wf a → inner_wf (assign_member topic pl q r a im).
Proof.
  intros Hwf. destruct im as [i member]. unfold assign_member.
  apply Forall_dict_set; [done |]. simpl.
  apply NoDup_keys_dict_set. by apply inner_wf_get.
Qed.

Lemma foldl_assign_member_wf topic pl q r l a :
  inner_wf a → inner_wf (foldl (assign_member topic pl q r) a l).
Proof.
  revert a. induction l as [|im l IH]; intros a Hwf; simpl; [done |].
  apply IH. by apply assign_member_wf.
Qed.

Lemma foldl_assign_member_lookup topic pl q r l a m t :
  lookup2 (foldl (assign_member topic pl q r) a l) m t
  = if decide (topic = t)
    then match last_index m l with
         | Some i =>
             Some (slice pl (q * i + min i r)
                     (q * i + min i r + (if negb (r <? i + 1) then q + 1 else q)))
         | None => lookup2 a m t
         end
    else lookup2 a m t.
Proof.
  revert a. induction l as [|[i member] l IH]; intros a; cbn [foldl last_index].
  - by destruct (decide (topic = t)).
  - rewrite IH, assign_member_lookup.
    destruct (decide (topic = t)) as [->|Ht].
    + destruct (last_index m l); [done |].
      destruct (decide (member = m)) as [->|Hm].
      * by rewrite decide_True.
      * rewrite decide_False; [done | by intros [? _]].
    + rewrite decide_False; [done | by intros [_ ?]].
Qed.

Lemma assign_topic_spec cluster a topic cs :
  cs ≠ [] → inner_wf a →
  ∃ a', assign_topic cluster a (topic, cs) = Some a' ∧ inner_wf a'
    ∧ ∀ m t, lookup2 a' m t
             = if decide (topic = t)
               then match topic_entry cluster topic cs m with
                    | Some x => Some x
                    | None => lookup2 a m t
                    end
               else lookup2 a m t.
Proof.
  intros Hcs Hwf. unfold assign_topic, topic_entry.
  destruct (partitions_for_topic cluster topic) as [ps|]; simpl.
  - assert (length (sorted cs) ≠ 0) as Hlen.
    { rewrite length_sorted. by destruct cs. }
    unfold floordiv, pymod. rewrite !decide_False by done. simpl.
    eexists. split; [done |]. split; [by apply foldl_assign_member_wf |].
    intros m t. rewrite foldl_assign_member_lookup.
    destruct (decide (topic = t)); [| done].
    by destruct (last_index m _).
  - exists a. split; [done |]. split; [done |].
    intros m t. by destruct (decide (topic = t)).
Qed.

Lemma topic_loop_spec cluster (its : dict string (list string)) a :
  NoDup (keys its) → Forall (λ kv, kv.2 ≠ []) its → inner_wf a →
  ∃ a', foldl (λ acc item, a ← acc; assign_topic cluster a item) (Some a) its
        = Some a'
    ∧ inner_wf a'
    ∧ ∀ m t, lookup2 a' m t
             = match dict_get its t ≫= λ cs, topic_entry cluster t cs m with
               | Some x => Some x
               | None => lookup2 a m t
               end.
Proof.
  revert a. induction its as [|[topic cs] its IH]; intros a Hnd Hne Hwf;
    cbn [foldl mbind option_bind dict_get].
  - by exists a.
  - apply NoDup_cons in Hnd as [Hnin Hnd]. apply Forall_cons in Hne as [Hcs Hne].
    destruct (assign_topic_spec cluster a topic cs Hcs Hwf) as (a1 & -> & Hwf1 & H1).
    destruct (IH a1 Hnd Hne Hwf1) as (a' & -> & Hwf' & H').
    exists a'. split; [done |]. split; [done |].
    intros m t. rewrite H', H1.
    destruct (decide (topic = t)) as [->|Ht]; [| done].
    simpl in Hnin. apply dict_get_None in Hnin. rewrite Hnin. simpl.
    by destruct (topic_entry cluster t cs m).
Qed.
End topic_loop_facts.

(** ** What [assign] returns *)

Section assign_facts.
Implicit Types (cluster : ClusterMetadata)
  (members : dict string ConsumerProtocolMemberMetadata).

Lemma last_index_nil_enumerate m : last_index m (enumerate (sorted [])) = None.
Proof. done. Qed.

Lemma dict_get_tabulate {V} (f : string → V) (ks : list string) m :
  dict_get ((λ k, (k, f k)) <$> ks) m = if decide (m ∈ ks) then Some (f m) else None.
Proof.
  induction ks as [|k ks IH]; cbn [fmap list_fmap dict_get].
  - rewrite decide_False; [done | apply not_elem_of_nil].
  - destruct (decide (k = m)) as [->|Hne].
    + rewrite decide_True; [done | by left].
    + rewrite IH. destruct (decide (m ∈ ks)) as [Hin|Hnin].
      * rewrite decide_True; [done | by right].
      * rewrite decide_False; [done |]. by intros [?|?]%elem_of_cons.
Qed.

Lemma keys_tabulate {V} (f : string → V) (ks : list string) :
  keys ((λ k, (k, f k)) <$> ks) = ks.
Proof.
  unfold keys. rewrite <- list_fmap_compose. simpl. apply list_fmap_id.
Qed.

Lemma assign_spec cluster members :
  NoDup (keys members) →
  ∃ a, inner_wf a
    ∧ (∀ m t, lookup2 a m t = topic_entry cluster t (subscribers t members) m)
    ∧ assign cluster members
      = Some ((λ m, (m, member_assignment a m)) <$> keys members).
Proof.
  intros Hnd.
  destruct (consumers_per_topic_inv members) as [Hk Hne].
  destruct (topic_loop_spec cluster (consumers_per_topic members) [] Hk Hne)
    as (a & Ha & Hwf & Hl); [constructor |].
  assert (assign cluster members = Some (protocol_assignment members a)) as ->.
  { exact (f_equal (λ o, o ≫= λ x, Some (protocol_assignment members x)) Ha). }
  exists a. split; [done |]. split.
  - intros m t. rewrite Hl.
    destruct (dict_get (consumers_per_topic members) t) as [cs|] eqn:E; simpl.
    + apply consumers_per_topic_lookup in E as [-> _].
      by destruct (topic_entry _ _ _ _).
    + apply consumers_per_topic_lookup_None in E. rewrite E.
      unfold topic_entry. by destruct (partitions_for_topic cluster t).
  - f_equal. unfold protocol_assignment.
    rewrite (foldl_dict_set_fresh (member_assignment a) (keys members) []); [done.. |].
    intros k _. apply not_elem_of_nil.
Qed.

Lemma Sorted_keys_NoDup_eq (d1 d2 : dict string (list Z)) :
  NoDup (keys d1) → NoDup (keys d2) →
  (∀ t, dict_get d1 t = dict_get d2 t) → sorted d1 = sorted d2.
Proof. intros H1 H2 Heq. apply sorted_proper. by apply dict_Permutation. Qed.

Lemma member_assignment_ext a1 a2 m :
  inner_wf a1 → inner_wf a2 → (∀ t, lookup2 a1 m t = lookup2 a2 m t) →
  member_assignment a1 m = member_assignment a2 m.
Proof.
  intros H1 H2 Heq. unfold member_assignment, items. f_equal.
  apply Sorted_keys_NoDup_eq; [by apply inner_wf_get.. | done].
Qed.

(** The entry of a member in the result. *)
Lemma assign_member_result cluster members :
  NoDup (keys members) →
  ∃ r, assign cluster members = Some r ∧ keys r = keys members
    ∧ (∀ m, m ∉ keys members → dict_get r m = None)
    ∧ ∀ m, m ∈ keys members →
        ∃ res, dict_get r m = Some res
          ∧ a_version res = cls_version ∧ a_user_data res = []
          ∧ Sorted py_le (assignment res)
          ∧ NoDup (keys (assignment res))
          ∧ ∀ t, dict_get (assignment res) t
                 = topic_entry cluster t (subscribers t members) m.
Proof.
  intros Hnd. destruct (assign_spec cluster members Hnd) as (a & Hwf & Hl & ->).
  eexists. split; [done |]. split; [apply keys_tabulate |]. split.
  - intros m Hm. rewrite dict_get_tabulate. by rewrite decide_False.
  - intros m Hm. exists (member_assignment a m).
    rewrite dict_get_tabulate, decide_True by done.
    split; [done |]. split; [done |]. split; [done |]. simpl. unfold items.
    pose proof (inner_wf_get a m Hwf) as Hk.
    split; [apply Sorted_sorted |]. split.
    + unfold keys in *. by rewrite sorted_Permutation.
    + intros t. rewrite <- Hl. unfold lookup2. symmetry.
      apply dict_get_Permutation; [done |]. symmetry. apply sorted_Permutation.
Qed.

Lemma assigned_spec cluster members r m t :
  NoDup (keys members) → assign cluster members = Some r → m ∈ keys members →
  assigned r m t = default [] (topic_entry cluster t (subscribers t members) m).
Proof.
  intros Hnd Hr Hm.
  destruct (assign_member_result cluster members Hnd) as (r' & Hr' & _ & _ & Hres).
  assert (r' = r) as -> by congruence.
  destruct (Hres m Hm) as (res & Hg & _ & _ & _ & _ & Hl).
  unfold assigned. by rewrite Hg, Hl.
Qed.
End assign_facts.

(** ** The ranges of one topic *)

Section range_facts.
Implicit Types (P M i j k : nat).

Lemma range_length_alt P M i :
  range_length P M i = P / M + (if decide (i < P mod M) then 1 else 0).
Proof.
  unfold range_length. destruct (Nat.ltb_spec (P mod M) (i + 1)); simpl.
  - rewrite decide_False; lia.
  - rewrite decide_True; lia.
Qed.

Lemma range_start_succ P M i :
  range_start P M (S i) = range_start P M i + range_length P M i.
Proof.
  rewrite range_length_alt. unfold range_start.
  rewrite Nat.mul_succ_r. destruct (decide (i < P mod M)); lia.
Qed.

Lemma range_start_0 P M : range_start P M 0 = 0.
Proof. unfold range_start. lia. Qed.

Lemma range_start_total P M : 0 < M → range_start P M M = P.
Proof.
  intros HM. unfold range_start.
  pose proof (Nat.mod_upper_bound P M ltac:(lia)).
  pose proof (Nat.div_mod_eq P M). lia.
Qed.

Lemma range_start_mono P M i j : i ≤ j → range_start P M i ≤ range_start P M j.
Proof.
  induction 1 as [|j Hle IH]; [done |]. rewrite range_start_succ. lia.
Qed.

Lemma range_end_le P M i :
  i < M → range_start P M i + range_length P M i ≤ P.
Proof.
  intros Hi. rewrite <- range_start_succ.
  etrans; [apply (range_start_mono P M (S i) M); lia |].
  rewrite range_start_total; lia.
Qed.

(** Every position of the partition list lies in the range of one index. *)
Lemma range_cover_below P M n k :
  k < range_start P M n →
  ∃ i, i < n ∧ range_start P M i ≤ k < range_start P M (S i).
Proof.
  induction n as [|n IH]; intros Hk.
  - rewrite range_start_0 in Hk. lia.
  - destruct (decide (k < range_start P M n)) as [Hlt|Hge].
    + destruct (IH Hlt) as (i & Hi & Hr). exists i. split; [lia | done].
    + exists n. split; [lia |]. lia.
Qed.

Lemma range_cover P M k :
  0 < M → k < P → ∃ i, i < M ∧ range_start P M i ≤ k < range_start P M (S i).
Proof.
  intros HM Hk. apply range_cover_below. by rewrite range_start_total.
Qed.

(** The ranges of two different indices do not meet. *)
Lemma range_apart P M i j k :
  range_start P M i ≤ k < range_start P M (S i) →
  range_start P M j ≤ k < range_start P M (S j) → i = j.
Proof.
  intros Hi Hj. destruct (Nat.lt_trichotomy i j) as [Hlt|[->|Hlt]]; [| done |].
  - pose proof (range_start_mono P M (S i) j ltac:(lia)). lia.
  - pose proof (range_start_mono P M (S j) i ltac:(lia)). lia.
Qed.
End range_facts.

Section range_of_facts.
Implicit Types (pl : list Z) (i M : nat).

Lemma range_of_eq pl M i :
  range_of pl M i
  = take (range_length (length pl) M i) (drop (range_start (length pl) M i) pl).
Proof.
  unfold range_of, slice, range_length, range_start. f_equal.
  destruct (negb _); lia.
Qed.

Lemma length_range_of pl M i :
  i < M → length (range_of pl M i) = range_length (length pl) M i.
Proof.
  intros Hi. rewrite range_of_eq, length_take, length_drop.
  pose proof (range_end_le (length pl) M i Hi). lia.
Qed.

Lemma elem_of_range_of pl M i p :
  i < M →
  p ∈ range_of pl M i
  ↔ ∃ k, range_start (length pl) M i ≤ k < range_start (length pl) M (S i)
         ∧ pl !! k = Some p.
Proof.
  intros Hi. rewrite range_of_eq, range_start_succ, list_elem_of_lookup.
  split.
  - intros [j Hj]. pose proof (lookup_lt_Some _ _ _ Hj) as Hlt.
    rewrite length_take in Hlt.
    rewrite lookup_take_lt, lookup_drop in Hj by lia.
    eexists. split; [| done]. lia.
  - intros (k & Hk & Hp). exists (k - range_start (length pl) M i).
    rewrite lookup_take_lt, lookup_drop by lia.
    rewrite <- Hp. f_equal. lia.
Qed.

Lemma NoDup_range_of pl M i : NoDup pl → NoDup (range_of pl M i).
Proof.
  intros Hnd. rewrite range_of_eq.
  eapply sublist_NoDup; [exact Hnd |].
  etrans; [apply sublist_take | apply sublist_drop].
Qed.
End range_of_facts.

(** ** The partitions of a member for a topic *)

Section assigned_facts.
Implicit Types (cluster : ClusterMetadata)
  (members : dict string ConsumerProtocolMemberMetadata)
  (r : dict string ConsumerProtocolMemberAssignment).

Lemma last_index_enum_Some (l : list string) n m i :
  NoDup l → l !! i = Some m →
  last_index m (zip (seq n (length l)) l) = Some (n + i).
Proof.
  revert n i. induction l as [|x l IH]; intros n i Hnd Hi; [done |].
  apply NoDup_cons in Hnd as [Hx Hnd]. cbn [length seq zip zip_with last_index].
  destruct i as [|i]; simpl in Hi.
  - injection Hi as ->.
    assert (last_index m (zip (seq (S n) (length l)) l) = None) as ->.
    { clear IH Hnd. revert n. induction l as [|y l IH]; intros n; [done |].
      apply not_elem_of_cons in Hx as [Hne Hx].
      cbn [length seq zip zip_with last_index].
      rewrite (IH Hx). by rewrite decide_False. }
    rewrite decide_True by done. f_equal. lia.
  - rewrite (IH (S n) i Hnd Hi). f_equal. lia.
Qed.

Lemma last_index_enum_None (l : list string) n m :
  m ∉ l → last_index m (zip (seq n (length l)) l) = None.
Proof.
  revert n. induction l as [|y l IH]; intros n Hm; [done |].
  apply not_elem_of_cons in Hm as [Hne Hm].
  cbn [length seq zip zip_with last_index].
  rewrite (IH _ Hm). by rewrite decide_False.
Qed.

Lemma subscribed_keys members m topic :
  subscribed members m topic → m ∈ keys members.
Proof.
  intros (md & Hin & _). unfold keys. apply list_elem_of_fmap. by exists (m, md).
Qed.

Lemma assigned_not_subscribed cluster members r m topic :
  NoDup (keys members) → assign cluster members = Some r →
  m ∉ subscribers topic members → assigned r m topic = [].
Proof.
  intros Hnd Hr Hm. destruct (decide (m ∈ keys members)) as [Hk|Hk].
  - rewrite (assigned_spec cluster members) by done.
    unfold topic_entry. destruct (partitions_for_topic cluster topic); [| done].
    simpl. unfold enumerate. rewrite last_index_enum_None; [done |].
    by rewrite elem_of_sorted.
  - destruct (assign_member_result cluster members Hnd) as (r' & Hr' & _ & Hn & _).
    assert (r' = r) as -> by congruence.
    unfold assigned. by rewrite (Hn m Hk).
Qed.

Lemma assigned_unknown_topic cluster members r m topic :
  NoDup (keys members) → assign cluster members = Some r →
  partitions_for_topic cluster topic = None → assigned r m topic = [].
Proof.
  intros Hnd Hr Hc. destruct (decide (m ∈ keys members)) as [Hk|Hk].
  - rewrite (assigned_spec cluster members) by done.
    unfold topic_entry. by rewrite Hc.
  - destruct (assign_member_result cluster members Hnd) as (r' & Hr' & _ & Hn & _).
    assert (r' = r) as -> by congruence.
    unfold assigned. by rewrite (Hn m Hk).
Qed.

Lemma assigned_at_index cluster members r topic partitions i m :
  members_wf members → assign cluster members = Some r →
  partitions_for_topic cluster topic = Some partitions →
  sorted (subscribers topic members) !! i = Some m →
  assigned r m topic
  = range_of (sorted (elements partitions))
      (length (sorted (subscribers topic members))) i.
Proof.
  intros Hwf Hr Hc Hi. pose proof Hwf as [Hnd _].
  assert (m ∈ keys members) as Hk.
  { apply (subscribed_keys members m topic), elem_of_subscribers.
    rewrite <- (elem_of_sorted m). by apply list_elem_of_lookup_2 in Hi. }
  rewrite (assigned_spec cluster members) by done.
  unfold topic_entry. rewrite Hc. simpl. unfold enumerate.
  rewrite (last_index_enum_Some _ 0 m i); [done | | done].
  apply NoDup_sorted. by apply NoDup_subscribers.
Qed.
End assigned_facts.

(** ** The claims about the assignor *)

Lemma py_le_Z (x y : Z) : py_le x y ↔ (x ≤ y)%Z.
Proof.
  unfold py_le, cmp, int_ord. rewrite Z.compare_lt_iff. lia.
Qed.

Lemma elem_of_partitions_list (partitions : gset Z) p :
  p ∈ sorted (elements partitions) ↔ p ∈ partitions.
Proof. by rewrite elem_of_sorted, elem_of_elements. Qed.

Lemma NoDup_partitions_list (partitions : gset Z) :
  NoDup (sorted (elements partitions)).
Proof. apply NoDup_sorted, NoDup_elements. Qed.

Lemma length_partitions_list (partitions : gset Z) :
  length (sorted (elements partitions)) = size partitions.
Proof. by rewrite length_sorted. Qed.

(** C1 (coverage): for a topic with known partitions and at least one
    subscribed member, [assign] returns a result in which the partitions
    given to the subscribed members for that topic are exactly the topic's
    known partitions, no partition is in the lists of two members, and no
    list names a partition twice. *)
Theorem assign_coverage cluster members topic partitions :
  members_wf members →
  partitions_for_topic cluster topic = Some partitions →
  (∃ m, subscribed members m topic) →
  ∃ r, assign cluster members = Some r
    ∧ (∀ p, p ∈ partitions
            ↔ ∃ m, subscribed members m topic ∧ p ∈ assigned r m topic)
    ∧ (∀ m1 m2 p,
         p ∈ assigned r m1 topic → p ∈ assigned r m2 topic → m1 = m2)
    ∧ (∀ m, NoDup (assigned r m topic)).
Proof.
  intros Hwf Hc [m0 Hm0]. pose proof Hwf as [Hnd _].
  destruct (assign_member_result cluster members Hnd) as (r & Hr & _).
  exists r. split; [done |].
  set (cs := sorted (subscribers topic members)).
  set (pl := sorted (elements partitions)).
  assert (NoDup cs) as Hcs by (apply NoDup_sorted; by apply NoDup_subscribers).
  assert (NoDup pl) as Hpl by apply NoDup_partitions_list.
  assert (∀ i m, cs !! i = Some m → assigned r m topic = range_of pl (length cs) i)
    as Hat by (intros i m; by apply (assigned_at_index cluster)).
  assert (∀ m p, p ∈ assigned r m topic →
            ∃ i, cs !! i = Some m ∧ p ∈ range_of pl (length cs) i) as Hidx.
  { intros m p Hp. destruct (decide (m ∈ cs)) as [Hin|Hnin].
    - apply list_elem_of_lookup in Hin as [i Hi]. exists i. split; [done |].
      by rewrite <- (Hat i m Hi).
    - rewrite (assigned_not_subscribed cluster members r m topic) in Hp; [| done.. |].
      + by apply elem_of_nil in Hp.
      + by rewrite <- (elem_of_sorted m). }
  assert (0 < length cs) as HM.
  { apply elem_of_subscribers in Hm0. rewrite <- (elem_of_sorted m0) in Hm0.
    fold cs in Hm0. destruct cs; [by apply elem_of_nil in Hm0 | simpl; lia]. }
  split_and!.
  - intros p. rewrite <- elem_of_partitions_list. fold pl. split.
    + intros [k Hk]%list_elem_of_lookup.
      destruct (range_cover (length pl) (length cs) k HM) as (i & Hi & Hr');
        [by apply lookup_lt_Some in Hk |].
      destruct (lookup_lt_is_Some_2 cs i Hi) as [m Hm].
      exists m. split.
      * apply elem_of_subscribers. rewrite <- (elem_of_sorted m).
        by apply list_elem_of_lookup_2 in Hm.
      * rewrite (Hat i m Hm). apply elem_of_range_of; [done |]. by exists k.
    + intros (m & _ & Hp). destruct (Hidx m p Hp) as (i & Hi & Hin).
      apply elem_of_range_of in Hin as (k & _ & Hk); [| by apply lookup_lt_Some in Hi].
      by apply list_elem_of_lookup_2 in Hk.
  - intros m1 m2 p Hp1 Hp2.
    destruct (Hidx m1 p Hp1) as (i1 & Hi1 & Hin1).
    destruct (Hidx m2 p Hp2) as (i2 & Hi2 & Hin2).
    apply elem_of_range_of in Hin1 as (k1 & Hk1 & Hl1); [| by apply lookup_lt_Some in Hi1].
    apply elem_of_range_of in Hin2 as (k2 & Hk2 & Hl2); [| by apply lookup_lt_Some in Hi2].
    assert (k1 = k2) as -> by apply (NoDup_lookup pl k1 k2 p Hpl Hl1 Hl2).
    assert (i1 = i2) as -> by apply (range_apart _ _ _ _ _ Hk1 Hk2).
    congruence.
  - intros m. destruct (decide (m ∈ cs)) as [Hin|Hnin].
    + apply list_elem_of_lookup in Hin as [i Hi]. rewrite (Hat i m Hi).
      by apply NoDup_range_of.
    + rewrite (assigned_not_subscribed cluster members r m topic); [| done.. |].
      * apply NoDup_nil_2.
      * by rewrite <- (elem_of_sorted m).
Qed.

(** C2 (balance): the member at index [i] of the lexicographically sorted
    subscribers of a topic with [P] partitions and [M] subscribers receives
    the run of the numerically sorted partition list that starts at
    [P/M * i + min i (P mod M)] and has [P/M] elements, plus one exactly when
    [i < P mod M]. *)
Theorem assign_balance cluster members topic partitions i m :
  members_wf members →
  partitions_for_topic cluster topic = Some partitions →
  sorted (subscribers topic members) !! i = Some m →
  let P := size partitions in
  let M := length (subscribers topic members) in
  ∃ r, assign cluster members = Some r
    ∧ assigned r m topic
      = take (P / M + (if decide (i < P mod M) then 1 else 0))
          (drop (P / M * i + min i (P mod M)) (sorted (elements partitions)))
    ∧ length (assigned r m topic) = P / M + (if decide (i < P mod M) then 1 else 0)
    ∧ (length (assigned r m topic) = P / M + 1 ↔ i < P mod M).
Proof.
  intros Hwf Hc Hi P M. pose proof Hwf as [Hnd _].
  destruct (assign_member_result cluster members Hnd) as (r & Hr & _).
  exists r. split; [done |].
  rewrite (assigned_at_index cluster members r topic partitions i m) by done.
  assert (i < M) as HiM.
  { apply lookup_lt_Some in Hi. by rewrite length_sorted in Hi. }
  rewrite (length_sorted (subscribers topic members)). fold M.
  rewrite length_range_of, range_of_eq by done.
  rewrite length_partitions_list. fold P.
  rewrite range_length_alt. split_and!; [done | done |].
  destruct (decide (i < P mod M)); split; (done || lia).
Qed.

Section determinism_facts.
Implicit Types (ms : dict string ConsumerProtocolMemberMetadata).

Lemma occurrences_same topic x y :
  same_entry x y → occurrences topic x ≡ₚ occurrences topic y.
Proof.
  intros [Hk Hs]. unfold occurrences. rewrite Hk.
  apply fmap_Permutation. by rewrite Hs.
Qed.

Lemma subscribers_same topic ms1 ms2 :
  same_members ms1 ms2 → subscribers topic ms1 ≡ₚ subscribers topic ms2.
Proof.
  intros (ms & Hp & Hf). unfold subscribers. rewrite Hp. clear Hp.
  induction Hf as [|x y ms ms2' Hxy Hf IH]; simpl; [done |].
  by rewrite IH, (occurrences_same topic x y).
Qed.

Lemma keys_same ms1 ms2 : same_members ms1 ms2 → keys ms1 ≡ₚ keys ms2.
Proof.
  intros (ms & Hp & Hf). unfold keys. rewrite Hp. clear Hp.
  induction Hf as [|x y ms ms2' [Hxy _] Hf IH]; simpl; [done |].
  by rewrite IH, Hxy.
Qed.

Lemma topic_entry_proper cluster topic cs1 cs2 m :
  cs1 ≡ₚ cs2 → topic_entry cluster topic cs1 m = topic_entry cluster topic cs2 m.
Proof. intros Hp. unfold topic_entry. by rewrite (sorted_proper cs1 cs2 Hp). Qed.
End determinism_facts.

(** C3 (determinism): two inputs with the same members, supplied in any
    iteration order, give every member the same result. *)
Theorem assign_deterministic cluster ms1 ms2 :
  NoDup (keys ms1) → same_members ms1 ms2 →
  ∃ r1 r2, assign cluster ms1 = Some r1 ∧ assign cluster ms2 = Some r2
    ∧ ∀ m, dict_get r1 m = dict_get r2 m.
Proof.
  intros Hnd1 Hsame. pose proof (keys_same ms1 ms2 Hsame) as Hkeys.
  assert (NoDup (keys ms2)) as Hnd2 by by rewrite <- Hkeys.
  destruct (assign_spec cluster ms1 Hnd1) as (a1 & Hwf1 & Hl1 & ->).
  destruct (assign_spec cluster ms2 Hnd2) as (a2 & Hwf2 & Hl2 & ->).
  do 2 eexists. split; [done |]. split; [done |].
  intros m. rewrite !dict_get_tabulate.
  destruct (decide (m ∈ keys ms1)) as [Hin|Hnin].
  - rewrite decide_True by by rewrite <- Hkeys. f_equal.
    apply member_assignment_ext; [done.. |]. intros t. rewrite Hl1, Hl2.
    apply topic_entry_proper. by apply subscribers_same.
  - rewrite decide_False; [done |]. by rewrite <- Hkeys.
Qed.

Section entry_facts.
Implicit Types (cluster : ClusterMetadata)
  (members : dict string ConsumerProtocolMemberMetadata).

Lemma last_index_is_Some m (l : list (nat * string)) :
  is_Some (last_index m l) ↔ m ∈ l.*2.
Proof.
  induction l as [|[i x] l IH]; simpl.
  - split; [by intros [? ?] | by intros ?%elem_of_nil].
  - rewrite elem_of_cons, <- IH. destruct (last_index m l) as [j|].
    + split; [right | ]; by eexists.
    + destruct (decide (x = m)) as [->|Hne].
      * split; [by left | by eexists].
      * split; [by intros [? ?] | intros [?|[? ?]]; done].
Qed.

Lemma topic_entry_is_Some cluster topic cs m :
  is_Some (topic_entry cluster topic cs m)
  ↔ is_Some (partitions_for_topic cluster topic) ∧ m ∈ cs.
Proof.
  unfold topic_entry, enumerate.
  assert (is_Some (last_index m (zip (seq 0 (length (sorted cs))) (sorted cs)))
          ↔ m ∈ cs) as <-.
  { rewrite last_index_is_Some, snd_zip by by rewrite length_seq.
    apply elem_of_sorted. }
  destruct (partitions_for_topic cluster topic) as [ps|]; simpl.
  - destruct (last_index m _); simpl; split; try done.
    intros [_ [? ?]]. done.
  - split; [by intros [? ?] | by intros [[? ?] _]].
Qed.

Lemma subscribed_lookup members m md topic :
  NoDup (keys members) → dict_get members m = Some md →
  subscribed members m topic ↔ topic ∈ subscription md.
Proof.
  intros Hnd Hg. split.
  - intros (md' & Hin & Ht). apply (elem_dict_get _ _ _ Hnd) in Hin. congruence.
  - intros Ht. exists md. split; [by apply dict_get_Some_elem | done].
Qed.

Lemma filter_filter_ne (topic t : string) (l : list string) :
  filter (λ x, x = t) (filter (λ x, x ≠ topic) l)
  = if decide (t = topic) then [] else filter (λ x, x = t) l.
Proof.
  induction l as [|t' l IH]; [by destruct (decide (t = topic)) |].
  rewrite (filter_cons (λ x, x ≠ topic)), (filter_cons (λ x, x = t) t' l).
  destruct (decide (t' ≠ topic)) as [Ht'|Ht'].
  - rewrite filter_cons, IH.
    destruct (decide (t' = t)) as [->|]; [| done]. by destruct (decide (t = topic)).
  - rewrite IH. destruct (decide (t = topic)) as [->|Hne]; [done |].
    rewrite decide_False; [done |]. intros ->. by apply Ht'.
Qed.

Lemma subscribers_unsubscribe topic members t :
  subscribers t (unsubscribe topic members)
  = if decide (t = topic) then [] else subscribers t members.
Proof.
  unfold subscribers, unsubscribe.
  induction members as [|[m md] members IH].
  - by destruct (decide (t = topic)).
  - rewrite fmap_cons, !bind_cons, IH. unfold occurrences at 1.
    cbn [fst snd subscription]. rewrite filter_filter_ne.
    by destruct (decide (t = topic)).
Qed.

Lemma keys_unsubscribe topic members :
  keys (unsubscribe topic members) = keys members.
Proof.
  unfold keys, unsubscribe. rewrite <- list_fmap_compose. done.
Qed.

Lemma Sorted_topic_lt (d : dict string (list Z)) :
  NoDup (keys d) → Sorted py_le d → Sorted topic_lt d.
Proof.
  unfold keys. intros Hnd Hs. induction Hs as [|x d Hs IH Hhd]; [constructor |].
  simpl in Hnd. apply NoDup_cons in Hnd as [Hx Hnd].
  constructor; [by apply IH |].
  destruct Hhd as [|y d' Hxy]; constructor.
  unfold topic_lt. unfold py_le, cmp, tuple_ord, tuple_cmp in Hxy.
  destruct (cmp x.1 y.1) eqn:E; [| done |].
  - apply cmp_eq_iff in E. exfalso. apply Hx. rewrite E. simpl. by left.
  - apply cmp_gt_lt in E. by rewrite E in Hxy.
Qed.
End entry_facts.

(** C8, as the code has it: the user data of every entry of the result is
    the empty byte string, whatever the member sent. *)
Theorem assign_user_data_empty cluster members :
  NoDup (keys members) →
  ∃ r, assign cluster members = Some r
    ∧ ∀ m res, dict_get r m = Some res → a_user_data res = [].
Proof.
  intros Hnd.
  destruct (assign_member_result cluster members Hnd) as (r & Hr & _ & Hn & Hres).
  exists r. split; [done |]. intros m res Hg.
  destruct (decide (m ∈ keys members)) as [Hk|Hk].
  - destruct (Hres m Hk) as (res' & Hg' & _ & Hu & _). congruence.
  - rewrite (Hn m Hk) in Hg. done.
Qed.

(** C9: a subscribed topic without partition metadata does not make
    [assign] raise, appears in no member's result, and leaves the result as
    it is when no member subscribes to that topic. *)
Theorem assign_skips_unknown_topic cluster members topic :
  NoDup (keys members) →
  partitions_for_topic cluster topic = None →
  ∃ r, assign cluster members = Some r
    ∧ (∀ m res, dict_get r m = Some res → topic ∉ keys (assignment res))
    ∧ (∀ m, assigned r m topic = [])
    ∧ assign cluster (unsubscribe topic members) = Some r.
Proof.
  intros Hnd Hc.
  destruct (assign_member_result cluster members Hnd) as (r & Hr & _ & Hn & Hres).
  exists r. split; [done |]. split_and!.
  - intros m res Hg. destruct (decide (m ∈ keys members)) as [Hk|Hk].
    + destruct (Hres m Hk) as (res' & Hg' & _ & _ & _ & _ & Hl).
      assert (res' = res) as -> by congruence.
      apply dict_get_None. rewrite Hl. unfold topic_entry. by rewrite Hc.
    + rewrite (Hn m Hk) in Hg. done.
  - intros m. by apply (assigned_unknown_topic cluster members).
  - destruct (assign_spec cluster members Hnd) as (a1 & Hwf1 & Hl1 & Hr1).
    assert (NoDup (keys (unsubscribe topic members))) as Hnd'
      by by rewrite keys_unsubscribe.
    destruct (assign_spec cluster _ Hnd') as (a2 & Hwf2 & Hl2 & ->).
    rewrite <- Hr, Hr1, keys_unsubscribe. f_equal.
    apply list_fmap_ext. intros _ m _. f_equal.
    apply member_assignment_ext; [done.. |]. intros t.
    rewrite Hl1, Hl2, subscribers_unsubscribe.
    destruct (decide (t = topic)) as [->|Hne]; [| done].
    unfold topic_entry. by rewrite Hc.
Qed.

(** C10, as the code has it: every input member has an entry in the result;
    its pairs are in strictly ascending topic order and name exactly the
    subscribed topics with partition metadata, so the list is empty exactly
    when the member subscribes to no such topic. *)
Theorem assign_entry_for_every_member cluster members m md :
  NoDup (keys members) → dict_get members m = Some md →
  ∃ r res, assign cluster members = Some r ∧ dict_get r m = Some res
    ∧ Sorted topic_lt (assignment res)
    ∧ (∀ t, t ∈ keys (assignment res)
            ↔ t ∈ subscription md ∧ is_Some (partitions_for_topic cluster t))
    ∧ (assignment res = []
       ↔ ∀ t, t ∈ subscription md → partitions_for_topic cluster t = None).
Proof.
  intros Hnd Hg.
  destruct (assign_member_result cluster members Hnd) as (r & Hr & _ & _ & Hres).
  assert (m ∈ keys members) as Hk.
  { unfold keys. apply list_elem_of_fmap. exists (m, md).
    split; [done | by apply dict_get_Some_elem]. }
  destruct (Hres m Hk) as (res & Hgr & _ & _ & Hs & Hkn & Hl).
  exists r, res. split; [done |]. split; [done |].
  assert (∀ t, t ∈ keys (assignment res)
            ↔ t ∈ subscription md ∧ is_Some (partitions_for_topic cluster t)) as Hkeys.
  { intros t. rewrite <- (subscribed_lookup members m md t Hnd Hg).
    rewrite <- elem_of_subscribers.
    rewrite elem_of_keys, Hl, topic_entry_is_Some. tauto. }
  split; [by apply Sorted_topic_lt |]. split; [done |]. split.
  - intros Hnil t Ht. destruct (partitions_for_topic cluster t) eqn:E; [| done].
    assert (t ∈ keys (assignment res)) as Hin by (apply Hkeys; by rewrite E).
    rewrite Hnil in Hin. by apply elem_of_nil in Hin.
  - intros Hnone. destruct (assignment res) as [|[t x] d] eqn:E; [done |].
    assert (t ∈ keys ((t, x) :: d)) as Hin by (simpl; by left).
    apply Hkeys in Hin as [Ht [ps Hps]]. rewrite (Hnone t Ht) in Hps. done.
Qed.

Example assign_docstring :
  assign docstring_cluster docstring_members
  = Some [("C1"%string,
           {| a_version := 0;
              assignment := [("t0"%string, [2%Z]); ("t1"%string, [2%Z])];
              a_user_data := [] |});
          ("C0"%string,
           {| a_version := 0;
              assignment := [("t0"%string, [0%Z; 1%Z]); ("t1"%string, [0%Z; 1%Z])];
              a_user_data := [] |})].
Proof. vm_compute. reflexivity. Qed.

(** Where [members_wf] matters: a subscription that names a topic twice
    puts its member twice among the consumers; the later range overwrites
    the earlier, and partition 0 goes to nobody. *)
Example assign_duplicate_subscription :
  assign docstring_cluster
    [("A"%string, metadata ["t0"; "t0"]%string); ("B"%string, metadata ["t0"%string])]
  = Some [("A"%string,
           {| a_version := 0; assignment := [("t0"%string, [1%Z])]; a_user_data := [] |});
          ("B"%string,
           {| a_version := 0; assignment := [("t0"%string, [2%Z])]; a_user_data := [] |})].
Proof. vm_compute. reflexivity. Qed.

Lemma docstring_members_wf : members_wf docstring_members.
Proof. split; apply (bool_decide_unpack _); vm_compute; exact I. Defined.

Lemma assign_coverage_witness :
  ∃ r, assign docstring_cluster docstring_members = Some r
    ∧ (∀ p, p ∈ ({[0%Z; 1%Z; 2%Z]} : gset Z)
            ↔ ∃ m, subscribed docstring_members m "t0" ∧ p ∈ assigned r m "t0")
    ∧ (∀ m1 m2 p,
         p ∈ assigned r m1 "t0" → p ∈ assigned r m2 "t0" → m1 = m2)
    ∧ (∀ m, NoDup (assigned r m "t0")).
Proof.
  apply (assign_coverage docstring_cluster docstring_members "t0" {[0%Z; 1%Z; 2%Z]}).
  - exact docstring_members_wf.
  - vm_compute. reflexivity.
  - exists "C0"%string, (metadata ["t1"; "t0"]%string). split.
    + apply elem_of_cons. right. apply elem_of_cons. by left.
    + apply elem_of_cons. right. apply elem_of_cons. by left.
Defined.

Lemma assign_balance_witness :
  ∃ r, assign docstring_cluster docstring_members = Some r
    ∧ assigned r "C0" "t0"
      = take (3 / 2 + (if decide (0 < 3 mod 2) then 1 else 0))
          (drop (3 / 2 * 0 + min 0 (3 mod 2)) (sorted (elements ({[0%Z; 1%Z; 2%Z]} : gset Z))))
    ∧ length (assigned r "C0" "t0") = 3 / 2 + (if decide (0 < 3 mod 2) then 1 else 0)
    ∧ (length (assigned r "C0" "t0") = 3 / 2 + 1 ↔ 0 < 3 mod 2).
Proof.
  exact (assign_balance docstring_cluster docstring_members "t0"
           {[0%Z; 1%Z; 2%Z]} 0 "C0" docstring_members_wf eq_refl eq_refl).
Defined.

Lemma docstring_same_members : same_members docstring_members docstring_members'.
Proof.
  exists [("C0", metadata ["t1"; "t0"]); ("C1", metadata ["t0"; "t1"])]%string.
  split; [apply Permutation_swap |].
  repeat constructor.
Defined.

Lemma assign_deterministic_witness :
  ∃ r1 r2, assign docstring_cluster docstring_members = Some r1
    ∧ assign docstring_cluster docstring_members' = Some r2
    ∧ ∀ m, dict_get r1 m = dict_get r2 m.
Proof.
  apply (assign_deterministic docstring_cluster docstring_members docstring_members').
  - apply docstring_members_wf.
  - exact docstring_same_members.
Defined.

(** C8 as stated fails: the member sent the user data [x], its entry of
    the result carries the empty byte string. *)
Lemma assign_user_data_not_carried :
  ∃ md res,
    dict_get user_data_members "C0"%string = Some md
    ∧ (assign docstring_cluster user_data_members ≫= λ r, dict_get r "C0"%string)
      = Some res
    ∧ user_data md = [Byte.x78] ∧ a_user_data res = []
    ∧ a_user_data res ≠ user_data md.
Proof. do 2 eexists. vm_compute. split_and!; done. Qed.

Lemma assign_user_data_empty_witness :
  ∃ r, assign docstring_cluster user_data_members = Some r
    ∧ ∀ m res, dict_get r m = Some res → a_user_data res = [].
Proof.
  apply (assign_user_data_empty docstring_cluster user_data_members).
  apply (bool_decide_unpack _). vm_compute. exact I.
Defined.

Lemma assign_skips_unknown_topic_witness :
  ∃ r, assign docstring_cluster user_data_members = Some r
    ∧ (∀ m res, dict_get r m = Some res → "gone"%string ∉ keys (assignment res))
    ∧ (∀ m, assigned r m "gone" = [])
    ∧ assign docstring_cluster (unsubscribe "gone" user_data_members) = Some r.
Proof.
  apply (assign_skips_unknown_topic docstring_cluster user_data_members "gone").
  - apply (bool_decide_unpack _). vm_compute. exact I.
  - vm_compute. reflexivity.
Defined.

(** C10 as stated fails: with one partition and two consumers, [B] is
    given no partition of any topic, and yet its list of pairs is not
    empty: it holds the topic with an empty partition list. *)
Lemma assign_empty_range_entry :
  ∃ r res,
    assign small_cluster small_members = Some r
    ∧ dict_get r "B"%string = Some res
    ∧ (∀ t, assigned r "B" t = [])
    ∧ assignment res = [("t"%string, [])]
    ∧ assignment res ≠ [].
Proof.
  do 2 eexists. split; [vm_compute; reflexivity |].
  split; [vm_compute; reflexivity |]. split_and!; [| done | done].
  intros t. unfold assigned. cbn [dict_get]. rewrite decide_False by done.
  rewrite decide_True by done. cbn [assignment dict_get].
  by destruct (decide ("t"%string = t)).
Qed.

Lemma assign_entry_for_every_member_witness :
  ∃ r res, assign small_cluster small_members = Some r
    ∧ dict_get r "B"%string = Some res
    ∧ Sorted topic_lt (assignment res)
    ∧ (∀ t, t ∈ keys (assignment res)
            ↔ t ∈ subscription (metadata ["t"%string])
              ∧ is_Some (partitions_for_topic small_cluster t))
    ∧ (assignment res = []
       ↔ ∀ t, t ∈ subscription (metadata ["t"%string]) →
              partitions_for_topic small_cluster t = None).
Proof.
  apply (assign_entry_for_every_member small_cluster small_members "B").
  - apply (bool_decide_unpack _). vm_compute. exact I.
  - vm_compute. reflexivity.
Defined.

(** ** Further properties of the assignor *)

Section assign_more.
Implicit Types (cluster : ClusterMetadata)
  (members : dict string ConsumerProtocolMemberMetadata)
  (r : dict string ConsumerProtocolMemberAssignment).

(** X1: the divisions of lines 58 and 59 never divide by zero: [assign]
    returns a result for every cluster and every input, also one that lists
    a member id twice or a topic twice in a subscription. *)
Theorem assign_never_raises cluster members : is_Some (assign cluster members).
Proof.
  destruct (consumers_per_topic_inv members) as [Hk Hne].
  destruct (topic_loop_spec cluster (consumers_per_topic members) [] Hk Hne)
    as (a & Ha & _); [constructor |].
  exists (protocol_assignment members a).
  exact (f_equal (λ o, o ≫= λ x, Some (protocol_assignment members x)) Ha).
Qed.

(** X2: the result has the member ids of the input as its keys, in the
    iteration order of the input, none added and none dropped, and every
    entry carries the version of the strategy, whatever version the member
    sent. *)
Theorem assign_keys_and_version cluster members :
  NoDup (keys members) →
  ∃ r, assign cluster members = Some r ∧ keys r = keys members
    ∧ ∀ m res, dict_get r m = Some res → a_version res = cls_version.
Proof.
  intros Hnd.
  destruct (assign_member_result cluster members Hnd) as (r & Hr & Hkeys & Hn & Hres).
  exists r. split; [done |]. split; [done |]. intros m res Hg.
  destruct (decide (m ∈ keys members)) as [Hk|Hk].
  - destruct (Hres m Hk) as (res' & Hg' & Hv & _). congruence.
  - rewrite (Hn m Hk) in Hg. done.
Qed.

Lemma elem_of_range_of_list (pl : list Z) M i p : p ∈ range_of pl M i → p ∈ pl.
Proof.
  rewrite range_of_eq. intros Hp.
  by apply (subseteq_drop (range_start (length pl) M i)), (subseteq_take _ _ _ Hp).
Qed.

Lemma assigned_cases cluster members r m t :
  NoDup (keys members) → assign cluster members = Some r →
  assigned r m t = []
  ∨ ∃ partitions i,
      partitions_for_topic cluster t = Some partitions
      ∧ subscribed members m t
      ∧ assigned r m t
        = range_of (sorted (elements partitions))
            (length (sorted (subscribers t members))) i.
Proof.
  intros Hnd Hr. destruct (decide (m ∈ subscribers t members)) as [Hin|Hnin].
  - assert (m ∈ keys members) as Hk
      by by apply (subscribed_keys members m t), elem_of_subscribers.
    rewrite (assigned_spec cluster members) by done. unfold topic_entry.
    destruct (partitions_for_topic cluster t) as [ps|]; [| by left].
    simpl. destruct (last_index m _) as [i|]; [| by left].
    right. exists ps, i. split; [done |]. split; [| done].
    by apply elem_of_subscribers.
  - left. by apply (assigned_not_subscribed cluster members).
Qed.

(** X3: a partition given to a member for a topic is a known partition of
    that topic, and the member subscribed to the topic. *)
Theorem assigned_known_and_subscribed cluster members r m t p :
  NoDup (keys members) → assign cluster members = Some r →
  p ∈ assigned r m t →
  subscribed members m t
  ∧ ∃ partitions, partitions_for_topic cluster t = Some partitions ∧ p ∈ partitions.
Proof.
  intros Hnd Hr Hp.
  destruct (assigned_cases cluster members r m t Hnd Hr) as [E|(ps & i & Hc & Hs & E)].
  - rewrite E in Hp. by apply elem_of_nil in Hp.
  - split; [done |]. exists ps. split; [done |].
    rewrite E in Hp. apply elem_of_range_of_list in Hp.
    by apply elem_of_partitions_list.
Qed.

Lemma StronglySorted_lt_partitions (partitions : gset Z) :
  StronglySorted Z.lt (sorted (elements partitions)).
Proof.
  pose proof (NoDup_partitions_list partitions) as Hnd.
  pose proof (Sorted_StronglySorted py_le _ (Sorted_sorted (elements partitions))) as Hs.
  induction Hs as [|x l Hs IH Hx]; [constructor |].
  apply NoDup_cons in Hnd as [Hnin Hnd]. constructor; [by apply IH |].
  apply Forall_forall. intros y Hy.
  pose proof (proj1 (Forall_forall _ _) Hx y Hy) as Hle. apply py_le_Z in Hle.
  assert (x ≠ y) by (intros ->; done). lia.
Qed.

Lemma StronglySorted_range_of (pl : list Z) M i :
  StronglySorted Z.lt pl → StronglySorted Z.lt (range_of pl M i).
Proof.
  intros Hs. rewrite range_of_eq.
  rewrite <- (take_drop (range_start (length pl) M i) pl) in Hs.
  apply StronglySorted_app_1_r in Hs.
  rewrite <- (take_drop (range_length (length pl) M i)
                (drop (range_start (length pl) M i) pl)) in Hs.
  by apply StronglySorted_app_1_l in Hs.
Qed.

(** X4: the partitions of a member for a topic are listed in strictly
    ascending numeric order. *)
Theorem assigned_ascending cluster members r m t :
  NoDup (keys members) → assign cluster members = Some r →
  StronglySorted Z.lt (assigned r m t).
Proof.
  intros Hnd Hr.
  destruct (assigned_cases cluster members r m t Hnd Hr) as [E|(ps & i & _ & _ & E)];
    rewrite E; [constructor |].
  apply StronglySorted_range_of, StronglySorted_lt_partitions.
Qed.

Lemma concat_ranges (pl : list Z) M n :
  concat ((λ i, range_of pl M i) <$> seq 0 n)
  = take (range_start (length pl) M n) pl.
Proof.
  induction n as [|n IH].
  - by rewrite range_start_0.
  - rewrite seq_S, fmap_app, concat_app, IH. cbn [fmap list_fmap concat].
    rewrite app_nil_r, range_of_eq, range_start_succ. apply take_take_drop.
Qed.

Lemma StronglySorted_lookup_lt (l : list Z) k1 k2 x y :
  StronglySorted Z.lt l → l !! k1 = Some x → l !! k2 = Some y →
  k1 < k2 → (x < y)%Z.
Proof.
  intros Hs. revert k1 k2. induction Hs as [|a l Hs IH Ha]; intros k1 k2 H1 H2 Hlt.
  - done.
  - destruct k2 as [|k2]; [lia |]. simpl in H2. destruct k1 as [|k1]; simpl in H1.
    + injection H1 as ->. apply (proj1 (Forall_forall _ _) Ha).
      by apply list_elem_of_lookup_2 in H2.
    + apply (IH k1 k2); [done | done | lia].
Qed.

(** X5: in the lexicographic order of the subscribers the lists of a
    topic, one after the other, are the numerically sorted partition list:
    the ranges are consecutive, and a consumer earlier in the order holds
    smaller partition ids than a later one. *)
Theorem assigned_consecutive cluster members topic partitions :
  members_wf members →
  partitions_for_topic cluster topic = Some partitions →
  subscribers topic members ≠ [] →
  ∃ r, assign cluster members = Some r
    ∧ concat ((λ m, assigned r m topic) <$> sorted (subscribers topic members))
      = sorted (elements partitions)
    ∧ ∀ i j mi mj p q,
        sorted (subscribers topic members) !! i = Some mi →
        sorted (subscribers topic members) !! j = Some mj →
        i < j → p ∈ assigned r mi topic → q ∈ assigned r mj topic → (p < q)%Z.
Proof.
  intros Hwf Hc Hne. pose proof Hwf as [Hnd _].
  destruct (assign_member_result cluster members Hnd) as (r & Hr & _).
  exists r. split; [done |].
  set (cs := sorted (subscribers topic members)).
  set (pl := sorted (elements partitions)).
  assert (∀ i m, cs !! i = Some m → assigned r m topic = range_of pl (length cs) i)
    as Hat by (intros i m; by apply (assigned_at_index cluster)).
  assert (0 < length cs) as HM.
  { unfold cs. rewrite length_sorted. destruct (subscribers topic members); [done |].
    simpl. lia. }
  split.
  - replace ((λ m, assigned r m topic) <$> cs)
      with ((λ i, range_of pl (length cs) i) <$> seq 0 (length cs)).
    + rewrite concat_ranges, range_start_total by done. by apply take_ge.
    + apply list_eq. intros i. rewrite !list_lookup_fmap.
      destruct (cs !! i) as [m|] eqn:E; simpl.
      * rewrite lookup_seq_lt by by apply lookup_lt_Some in E.
        simpl. f_equal. symmetry. by apply Hat.
      * rewrite lookup_seq_ge by by apply lookup_ge_None in E. done.
  - intros i j mi mj p q Hi Hj Hij Hp Hq.
    rewrite (Hat i mi Hi) in Hp. rewrite (Hat j mj Hj) in Hq.
    apply elem_of_range_of in Hp as (k1 & Hk1 & Hl1); [| by apply lookup_lt_Some in Hi].
    apply elem_of_range_of in Hq as (k2 & Hk2 & Hl2); [| by apply lookup_lt_Some in Hj].
    apply (StronglySorted_lookup_lt pl k1 k2);
      [apply StronglySorted_lt_partitions | done | done |].
    pose proof (range_start_mono (length pl) (length cs) (S i) j ltac:(lia)). lia.
Qed.

(** X6: the lists of a topic depend on that topic alone: two rounds in
    which the topic has the same partitions and the same subscribers give
    every member the same partitions of the topic, whatever else differs
    (other topics, their subscribers, members that do not subscribe). *)
Theorem assigned_topic_local cluster1 cluster2 members1 members2 t :
  NoDup (keys members1) → NoDup (keys members2) →
  partitions_for_topic cluster1 t = partitions_for_topic cluster2 t →
  subscribers t members1 ≡ₚ subscribers t members2 →
  ∃ r1 r2, assign cluster1 members1 = Some r1 ∧ assign cluster2 members2 = Some r2
    ∧ ∀ m, assigned r1 m t = assigned r2 m t.
Proof.
  intros Hnd1 Hnd2 Hc Hs.
  destruct (assign_member_result cluster1 members1 Hnd1) as (r1 & Hr1 & _).
  destruct (assign_member_result cluster2 members2 Hnd2) as (r2 & Hr2 & _).
  exists r1, r2. split; [done |]. split; [done |]. intros m.
  destruct (decide (m ∈ subscribers t members1)) as [Hin|Hnin].
  - assert (m ∈ subscribers t members2) as Hin2 by by rewrite <- Hs.
    rewrite (assigned_spec cluster1 members1), (assigned_spec cluster2 members2);
      [| done | done | | done | done |].
    + f_equal. unfold topic_entry. rewrite Hc.
      by rewrite (sorted_proper _ _ Hs).
    + by apply (subscribed_keys members2 m t), elem_of_subscribers.
    + by apply (subscribed_keys members1 m t), elem_of_subscribers.
  - rewrite (assigned_not_subscribed cluster1 members1 r1 m t) by done.
    symmetry. apply (assigned_not_subscribed cluster2 members2 r2 m t); [done.. |].
    by rewrite <- Hs.
Qed.

(** X7: the load of a topic is balanced and front-loaded: of two
    subscribers the one earlier in lexicographic order gets as many
    partitions as the later one, or one more. *)
Theorem assigned_front_loaded cluster members topic partitions i j mi mj :
  members_wf members →
  partitions_for_topic cluster topic = Some partitions →
  sorted (subscribers topic members) !! i = Some mi →
  sorted (subscribers topic members) !! j = Some mj →
  i ≤ j →
  ∃ r, assign cluster members = Some r
    ∧ length (assigned r mj topic) ≤ length (assigned r mi topic)
    ∧ length (assigned r mi topic) ≤ length (assigned r mj topic) + 1.
Proof.
  intros Hwf Hc Hi Hj Hij. pose proof Hwf as [Hnd _].
  destruct (assign_member_result cluster members Hnd) as (r & Hr & _).
  exists r. split; [done |].
  rewrite (assigned_at_index cluster members r topic partitions i mi) by done.
  rewrite (assigned_at_index cluster members r topic partitions j mj) by done.
  pose proof (lookup_lt_Some _ _ _ Hi) as HiM.
  pose proof (lookup_lt_Some _ _ _ Hj) as HjM.
  rewrite !length_range_of, !range_length_alt by done.
  repeat case_decide; lia.
Qed.

Lemma take_1_drop {A} (l : list A) i : take 1 (drop i l) = option_list (l !! i).
Proof.
  revert i. induction l as [|x l IH]; intros [|i]; simpl; done.
Qed.

(** X8: with more consumers than partitions the consumer at index [i] of
    the lexicographic order gets the partition at index [i] of the sorted
    partition list and nothing else, and the consumers past the last
    partition get the empty list. *)
Theorem assigned_more_consumers_than_partitions cluster members topic partitions i m :
  members_wf members →
  partitions_for_topic cluster topic = Some partitions →
  sorted (subscribers topic members) !! i = Some m →
  size partitions < length (subscribers topic members) →
  ∃ r, assign cluster members = Some r
    ∧ assigned r m topic = option_list (sorted (elements partitions) !! i).
Proof.
  intros Hwf Hc Hi Hlt. pose proof Hwf as [Hnd _].
  destruct (assign_member_result cluster members Hnd) as (r & Hr & _).
  exists r. split; [done |].
  rewrite (assigned_at_index cluster members r topic partitions i m) by done.
  rewrite range_of_eq, length_partitions_list,
    (length_sorted (subscribers topic members)).
  unfold range_start. rewrite range_length_alt.
  rewrite Nat.div_small, Nat.mod_small by done.
  set (pl := sorted (elements partitions)).
  assert (length pl = size partitions) as Hlen by apply length_partitions_list.
  destruct (decide (i < size partitions)) as [Hip|Hip].
  - replace (0 * i + i `min` size partitions) with i by lia. apply take_1_drop.
  - rewrite take_0. rewrite (lookup_ge_None_2 pl i) by lia. done.
Qed.

(** X9: [metadata] and [assign] agree on version and user data: for a
    member whose subscription metadata was built by [metadata], the entry
    of the result carries the version and the user data of that metadata. *)
Theorem assign_after_metadata cluster members m topics :
  NoDup (keys members) → dict_get members m = Some (metadata topics) →
  ∃ r res, assign cluster members = Some r ∧ dict_get r m = Some res
    ∧ a_version res = version (metadata topics)
    ∧ a_user_data res = user_data (metadata topics).
Proof.
  intros Hnd Hg.
  destruct (assign_member_result cluster members Hnd) as (r & Hr & _ & _ & Hres).
  assert (m ∈ keys members) as Hk.
  { unfold keys. apply list_elem_of_fmap. exists (m, metadata topics).
    split; [done | by apply dict_get_Some_elem]. }
  destruct (Hres m Hk) as (res & Hgr & Hv & Hu & _).
  exists r, res. by rewrite Hv, Hu.
Qed.

(** X10: the consumer lists of lines 42-45: no topic is a key twice; a
    topic is a key exactly when some member subscribes to it; its list is
    then not empty and holds exactly the members that subscribe to it. *)
Theorem consumers_per_topic_subscribers members :
  NoDup (keys (consumers_per_topic members))
  ∧ ∀ t, match dict_get (consumers_per_topic members) t with
         | Some cs => cs ≠ [] ∧ ∀ m, m ∈ cs ↔ subscribed members m t
         | None => ∀ m, ¬ subscribed members m t
         end.
Proof.
  split; [apply consumers_per_topic_inv |]. intros t.
  destruct (dict_get (consumers_per_topic members) t) as [cs|] eqn:E.
  - apply consumers_per_topic_lookup in E as [-> Hne]. split; [done |].
    intros m. apply elem_of_subscribers.
  - apply consumers_per_topic_lookup_None in E. intros m Hm.
    apply elem_of_subscribers in Hm. rewrite E in Hm. by apply elem_of_nil in Hm.
Qed.

End assign_more.

Ltac by_computation := apply (bool_decide_unpack _); vm_compute; exact I.

Lemma small_members_wf : members_wf small_members.
Proof. split; by_computation. Defined.

Lemma assign_keys_and_version_witness :
  ∃ r, assign docstring_cluster docstring_members = Some r
    ∧ keys r = keys docstring_members
    ∧ ∀ m res, dict_get r m = Some res → a_version res = cls_version.
Proof.
  apply (assign_keys_and_version docstring_cluster docstring_members).
  by_computation.
Defined.

Lemma assigned_known_and_subscribed_witness :
  subscribed docstring_members "C1" "t0"
  ∧ ∃ partitions,
      partitions_for_topic docstring_cluster "t0" = Some partitions
      ∧ 2%Z ∈ partitions.
Proof.
  apply (assigned_known_and_subscribed docstring_cluster docstring_members
           docstring_result "C1" "t0" 2%Z).
  - by_computation.
  - vm_compute. reflexivity.
  - by_computation.
Defined.

Lemma assigned_ascending_witness :
  StronglySorted Z.lt (assigned docstring_result "C0" "t1").
Proof.
  apply (assigned_ascending docstring_cluster docstring_members docstring_result
           "C0" "t1").
  - by_computation.
  - vm_compute. reflexivity.
Defined.

Lemma assigned_consecutive_witness :
  ∃ r, assign docstring_cluster docstring_members = Some r
    ∧ concat ((λ m, assigned r m "t0") <$> sorted (subscribers "t0" docstring_members))
      = sorted (elements ({[0%Z; 1%Z; 2%Z]} : gset Z))
    ∧ ∀ i j mi mj p q,
        sorted (subscribers "t0" docstring_members) !! i = Some mi →
        sorted (subscribers "t0" docstring_members) !! j = Some mj →
        i < j → p ∈ assigned r mi "t0" → q ∈ assigned r mj "t0" → (p < q)%Z.
Proof.
  apply (assigned_consecutive docstring_cluster docstring_members "t0"
           {[0%Z; 1%Z; 2%Z]}).
  - exact docstring_members_wf.
  - vm_compute. reflexivity.
  - vm_compute. discriminate.
Defined.

Lemma assigned_topic_local_witness :
  ∃ r1 r2,
    assign docstring_cluster docstring_members = Some r1
    ∧ assign wider_cluster wider_members = Some r2
    ∧ ∀ m, assigned r1 m "t0" = assigned r2 m "t0".
Proof.
  apply (assigned_topic_local docstring_cluster wider_cluster
           docstring_members wider_members "t0").
  - by_computation.
  - by_computation.
  - vm_compute. reflexivity.
  - vm_compute. apply Permutation_swap.
Defined.

Lemma assigned_front_loaded_witness :
  ∃ r, assign docstring_cluster docstring_members = Some r
    ∧ length (assigned r "C1" "t0") ≤ length (assigned r "C0" "t0")
    ∧ length (assigned r "C0" "t0") ≤ length (assigned r "C1" "t0") + 1.
Proof.
  apply (assigned_front_loaded docstring_cluster docstring_members "t0"
           {[0%Z; 1%Z; 2%Z]} 0 1 "C0" "C1").
  - exact docstring_members_wf.
  - vm_compute. reflexivity.
  - vm_compute. reflexivity.
  - vm_compute. reflexivity.
  - lia.
Defined.

Lemma assigned_more_consumers_than_partitions_witness :
  ∃ r, assign small_cluster small_members = Some r
    ∧ assigned r "B" "t" = option_list (sorted (elements ({[0%Z]} : gset Z)) !! 1).
Proof.
  apply (assigned_more_consumers_than_partitions small_cluster small_members "t"
           {[0%Z]} 1 "B").
  - exact small_members_wf.
  - vm_compute. reflexivity.
  - vm_compute. reflexivity.
  - apply Nat.ltb_lt. vm_compute. reflexivity.
Defined.

Lemma assign_after_metadata_witness :
  ∃ r res, assign docstring_cluster docstring_members = Some r
    ∧ dict_get r "C0"%string = Some res
    ∧ a_version res = version (metadata ["t1"; "t0"]%string)
    ∧ a_user_data res = user_data (metadata ["t1"; "t0"]%string).
Proof.
  apply (assign_after_metadata docstring_cluster docstring_members "C0"
           ["t1"; "t0"]%string).
  - by_computation.
  - vm_compute. reflexivity.
Defined.

(** * Properties of the legacy record batch codec *)

Import LegacyRecords.

(** ** Integers in the buffer *)

Section pack_facts.
Local Open Scope Z_scope.

Lemma Z_of_byte_range (b : byte) : 0 ≤ Z_of_byte b < 256.
Proof.
  unfold Z_of_byte. pose proof (Byte.to_N_bounded b). lia.
Qed.

Lemma Z_of_byte_of_Z (z : Z) : Z_of_byte (byte_of_Z z) = z mod 256.
Proof.
  unfold Z_of_byte, byte_of_Z.
  pose proof (Z.mod_pos_bound z 256 ltac:(lia)) as Hr.
  destruct (Byte.of_N (Z.to_N (z mod 256))) as [b|] eqn:E; simpl.
  - apply Byte.to_of_N in E. rewrite E. lia.
  - apply Byte.of_N_None_iff in E. lia.
Qed.

Lemma length_pack_be (w : nat) (z : Z) : length (pack_be w z) = w.
Proof. induction w as [|w IH]; simpl; [done | by rewrite IH]. Qed.

Lemma unpack_ube_foldl (acc : Z) (bs : bytes) :
  foldl (λ acc b, acc * 256 + Z_of_byte b) acc bs
  = acc * 256 ^ Z.of_nat (length bs) + unpack_ube bs.
Proof.
  unfold unpack_ube. revert acc. induction bs as [|b bs IH]; intros acc.
  - simpl. lia.
  - cbn [foldl length]. rewrite IH, (IH (0 * 256 + Z_of_byte b)).
    rewrite Nat2Z.inj_succ, Z.pow_succ_r by lia. lia.
Qed.

Lemma unpack_ube_cons (b : byte) (bs : bytes) :
  unpack_ube (b :: bs) = Z_of_byte b * 256 ^ Z.of_nat (length bs) + unpack_ube bs.
Proof.
  unfold unpack_ube at 1. cbn [foldl]. rewrite unpack_ube_foldl. lia.
Qed.

Lemma pow_256 (w : nat) : 256 ^ Z.of_nat w = 2 ^ (8 * Z.of_nat w).
Proof. rewrite Z.pow_mul_r by lia. done. Qed.

Lemma unpack_ube_pack_be (w : nat) (z : Z) :
  unpack_ube (pack_be w z) = z mod 2 ^ (8 * Z.of_nat w).
Proof.
  induction w as [|w IH].
  - simpl. by rewrite Z.mod_1_r.
  - cbn [pack_be]. rewrite unpack_ube_cons, IH, length_pack_be, Z_of_byte_of_Z.
    rewrite Z.shiftr_div_pow2 by lia. rewrite pow_256.
    replace (8 * Z.of_nat (S w)) with (8 * Z.of_nat w + 8) by lia.
    rewrite Z.pow_add_r by lia.
    rewrite (Z.rem_mul_r z (2 ^ (8 * Z.of_nat w)) (2 ^ 8)) by lia.
    change (2 ^ 8) with 256. lia.
Qed.

(** A value within the range of the field comes back as it went in. *)
Lemma unpack_be_pack_be (w : nat) (z : Z) :
  (0 < w)%nat →
  - 2 ^ (8 * Z.of_nat w - 1) ≤ z < 2 ^ (8 * Z.of_nat w - 1) →
  unpack_be (pack_be w z) = z.
Proof.
  intros Hw Hz. unfold unpack_be.
  rewrite unpack_ube_pack_be, length_pack_be.
  set (n := 8 * Z.of_nat w) in *.
  assert (2 ^ n = 2 * 2 ^ (n - 1)) as Hp.
  { rewrite <- Z.pow_succ_r by lia. f_equal. lia. }
  assert (0 < 2 ^ (n - 1)) by (apply Z.pow_pos_nonneg; lia).
  destruct (decide (0 ≤ z)) as [Hpos|Hneg].
  - rewrite Z.mod_small by lia.
    destruct (Z.ltb_spec z (2 ^ (n - 1))); lia.
  - replace (z mod 2 ^ n) with (z + 2 ^ n).
    + destruct (Z.ltb_spec (z + 2 ^ n) (2 ^ (n - 1))); lia.
    + apply (Z.mod_unique _ _ (-1)); lia.
Qed.

Lemma unpack_ube_pack_be_small (w : nat) (z : Z) :
  0 ≤ z < 2 ^ (8 * Z.of_nat w) → unpack_ube (pack_be w z) = z.
Proof. intros Hz. rewrite unpack_ube_pack_be. by apply Z.mod_small. Qed.

(** The checksum is a 32-bit value. *)
Lemma lxor_range (n a b : Z) :
  0 ≤ n → 0 ≤ a < 2 ^ n → 0 ≤ b < 2 ^ n → 0 ≤ Z.lxor a b < 2 ^ n.
Proof.
  intros Hn Ha Hb. split; [apply Z.lxor_nonneg; lia |].
  destruct (decide (Z.lxor a b = 0)) as [->|Hne]; [lia |].
  assert (0 ≤ Z.lxor a b) by (apply Z.lxor_nonneg; lia).
  assert (0 < n) as Hn'.
  { destruct (decide (n = 0)) as [->|]; [| lia].
    assert (a = 0) as -> by lia. assert (b = 0) as -> by lia. done. }
  apply Z.log2_lt_pow2; [lia |].
  pose proof (Z.log2_lxor a b ltac:(lia) ltac:(lia)) as Hl.
  assert (Z.log2 a < n) as Hla.
  { destruct (decide (a = 0)) as [->|]; [simpl; lia |]. apply Z.log2_lt_pow2; lia. }
  assert (Z.log2 b < n) as Hlb.
  { destruct (decide (b = 0)) as [->|]; [simpl; lia |]. apply Z.log2_lt_pow2; lia. }
  lia.
Qed.

Lemma shiftr_1_range (c : Z) : 0 ≤ c < 2 ^ 32 → 0 ≤ Z.shiftr c 1 < 2 ^ 32.
Proof.
  intros Hc. rewrite Z.shiftr_div_pow2 by lia. change (2 ^ 1) with 2.
  split; [apply Z.div_pos; lia |].
  apply Z.div_lt_upper_bound; lia.
Qed.

Lemma crc32_bit_range (c : Z) : 0 ≤ c < 2 ^ 32 → 0 ≤ crc32_bit c < 2 ^ 32.
Proof.
  intros Hc. unfold crc32_bit. pose proof (shiftr_1_range c Hc).
  destruct (Z.testbit c 0); [| done].
  apply lxor_range; [lia | done | lia].
Qed.

Lemma crc32_byte_range (c : Z) (b : byte) :
  0 ≤ c < 2 ^ 32 → 0 ≤ crc32_byte c b < 2 ^ 32.
Proof.
  intros Hc. unfold crc32_byte.
  assert (0 ≤ Z.lxor c (Z_of_byte b) < 2 ^ 32) as H0.
  { apply lxor_range; [lia | done |]. pose proof (Z_of_byte_range b). lia. }
  generalize dependent (Z.lxor c (Z_of_byte b)). intros x Hx.
  do 8 (apply crc32_bit_range). done.
Qed.

Lemma crc32_range (data : bytes) : 0 ≤ crc32 data < 2 ^ 32.
Proof.
  unfold crc32. apply lxor_range; [lia | | lia].
  assert (0 ≤ 0xFFFFFFFF < 2 ^ 32) as H0 by lia.
  generalize dependent 0xFFFFFFFF. induction data as [|b data IH]; intros c Hc.
  - done.
  - cbn [foldl]. apply IH. by apply crc32_byte_range.
Qed.

End pack_facts.

(** ** Records in the buffer *)

#[local] Arguments pack_be : simpl never.
#[local] Arguments unpack_be : simpl never.
#[local] Arguments unpack_ube : simpl never.
#[local] Arguments crc32 : simpl never.

Ltac step_bind := cbn [mbind option_bind].
Ltac field_range :=
  unfold int64 in *;
  change (8 * Z.of_nat 8 - 1)%Z with 63%Z;
  change (8 * Z.of_nat 4 - 1)%Z with 31%Z;
  change (8 * Z.of_nat 1 - 1)%Z with 7%Z;
  change (8 * Z.of_nat 4)%Z with 32%Z;
  lia.

Section decode_facts.
Local Open Scope Z_scope.

Lemma split_at_app (n : nat) (a b : bytes) :
  length a = n → split_at n (a ++ b) = Some (a, b).
Proof.
  intros <-. unfold split_at. rewrite decide_True by (rewrite length_app; lia).
  by rewrite take_app_length, drop_app_length.
Qed.

Lemma length_encode_bytes (k : option bytes) :
  Z.of_nat (length (encode_bytes k)) = 4 + bytes_size k.
Proof.
  destruct k as [bs|]; cbn [encode_bytes bytes_size].
  - rewrite length_app, length_pack_be. lia.
  - by rewrite length_pack_be.
Qed.

Lemma decode_encode_bytes (k : option bytes) (rest : bytes) :
  bytes_size k < 2 ^ 31 → decode_bytes (encode_bytes k ++ rest) = Some (k, rest).
Proof.
  intros Hk. unfold decode_bytes, encode_bytes.
  destruct k as [bs|]; cbn [bytes_size] in Hk.
  - rewrite <- app_assoc, (split_at_app 4) by apply length_pack_be. step_bind.
    rewrite unpack_be_pack_be by field_range.
    destruct (Z.eqb_spec (Z.of_nat (length bs)) (-1)); [lia |].
    destruct (Z.ltb_spec (Z.of_nat (length bs)) 0); [lia |].
    by rewrite Nat2Z.id, (split_at_app (length bs)).
  - rewrite (split_at_app 4) by apply length_pack_be. step_bind.
    by rewrite unpack_be_pack_be by field_range.
Qed.

Lemma length_encode_body magic attributes timestamp key value :
  Z.of_nat (length (encode_body magic attributes timestamp key value))
  = record_overhead magic - 4 + bytes_size key + bytes_size value.
Proof.
  unfold encode_body, record_overhead.
  rewrite !length_app, !length_pack_be, !Nat2Z.inj_add, !length_encode_bytes.
  destruct (magic =? 0); [cbn [length]; lia |]. rewrite length_pack_be. lia.
Qed.

Lemma decode_encode_body magic attributes timestamp key value :
  - 128 ≤ attributes < 128 → int64 timestamp →
  bytes_size key < 2 ^ 31 → bytes_size value < 2 ^ 31 →
  decode_body magic (encode_body magic attributes timestamp key value)
  = Some (attributes, (if magic =? 0 then unpack_be [] else timestamp), key, value).
Proof.
  intros Ha Ht Hk Hv. unfold decode_body, encode_body.
  rewrite (split_at_app 1) by apply length_pack_be. step_bind.
  rewrite (split_at_app 1) by apply length_pack_be. step_bind.
  rewrite unpack_be_pack_be by field_range.
  destruct (magic =? 0); step_bind.
  - rewrite app_nil_l, decode_encode_bytes by done. step_bind.
    rewrite <- (app_nil_r (encode_bytes value)), decode_encode_bytes by done. done.
  - rewrite (split_at_app 8) by apply length_pack_be. step_bind.
    rewrite decode_encode_bytes by done. step_bind.
    rewrite <- (app_nil_r (encode_bytes value)), decode_encode_bytes by done.
    step_bind.
    by rewrite unpack_be_pack_be by field_range.
Qed.

Lemma length_encode_msg magic offset attributes timestamp key value :
  Z.of_nat (length (encode_msg magic offset attributes timestamp key value).1)
  = size_in_bytes magic key value.
Proof.
  unfold encode_msg, size_in_bytes, LOG_OVERHEAD. cbn [fst].
  rewrite !length_app, !length_pack_be, !Nat2Z.inj_add, length_encode_body. lia.
Qed.

Lemma record_overhead_range magic : 14 ≤ record_overhead magic ≤ 22.
Proof. unfold record_overhead. destruct (magic =? 0); lia. Qed.

Lemma bytes_size_nonneg (k : option bytes) : 0 ≤ bytes_size k.
Proof. destruct k; simpl; lia. Qed.

Lemma decode_encode_msg magic offset attributes timestamp key value rest :
  int64 offset → - 128 ≤ attributes < 128 → int64 timestamp →
  bytes_size key + bytes_size value < 2 ^ 31 - 22 →
  decode_msg magic ((encode_msg magic offset attributes timestamp key value).1 ++ rest)
  = Some (raw_record magic offset attributes timestamp key value, rest).
Proof.
  intros Ho Ha Ht Hkv. unfold decode_msg, encode_msg. cbn [fst].
  pose proof (bytes_size_nonneg key). pose proof (bytes_size_nonneg value).
  pose proof (record_overhead_range magic).
  set (body := encode_body magic attributes timestamp key value).
  pose proof (length_encode_body magic attributes timestamp key value) as Hlen.
  fold body in Hlen.
  rewrite <- !app_assoc, (split_at_app 8) by apply length_pack_be. step_bind.
  rewrite (split_at_app 4) by apply length_pack_be. step_bind.
  rewrite !unpack_be_pack_be by field_range.
  destruct (Z.ltb_spec (4 + Z.of_nat (length body)) 4); [lia |].
  rewrite app_assoc, (split_at_app (Z.to_nat (4 + Z.of_nat (length body))))
    by (rewrite length_app, length_pack_be; lia).
  step_bind. rewrite take_app_length', drop_app_length' by by rewrite length_pack_be.
  rewrite unpack_ube_pack_be_small by (pose proof (crc32_range body); field_range).
  unfold body. rewrite decode_encode_body by (done || lia). done.
Qed.

Lemma encode_msg_nonempty magic offset attributes timestamp key value :
  (encode_msg magic offset attributes timestamp key value).1 ≠ [].
Proof.
  intros E. pose proof (length_encode_msg magic offset attributes timestamp key value) as H.
  rewrite E in H. unfold size_in_bytes, LOG_OVERHEAD in H. cbn [length] in H.
  pose proof (bytes_size_nonneg key). pose proof (bytes_size_nonneg value).
  pose proof (record_overhead_range magic). lia.
Qed.

Lemma decode_msgs_cons fuel magic (msg rest : bytes) raw :
  msg ≠ [] → decode_msg magic (msg ++ rest) = Some (raw, rest) →
  decode_msgs (S fuel) magic (msg ++ rest) = (raw ::.) <$> decode_msgs fuel magic rest.
Proof.
  intros Hne Hd. destruct msg as [|b msg]; [done |].
  cbn [decode_msgs app]. change (b :: msg ++ rest) with ((b :: msg) ++ rest).
  rewrite Hd. step_bind. by destruct (decode_msgs fuel magic rest).
Qed.

End decode_facts.

(** ** The builder and the reader *)

Section builder_facts.
Local Open Scope Z_scope.
Implicit Types (b : LegacyRecordBatchBuilder) (c : AppendCall).

Lemma append_call_eq b c :
  append_call b c
  = if rejects b c then (None, b)
    else (Some (metadata_of (magic b) c),
          with_buffer b (buffer b ++ encode_call (magic b) c)).
Proof.
  unfold append_call, append, rejects, metadata_of, encode_call, with_buffer.
  by destruct (negb (size b =? 0) && _).
Qed.

Lemma append_all_cons b c calls :
  append_all b (c :: calls)
  = ((append_call b c).1 :: (append_all (append_call b c).2 calls).1,
     (append_all (append_call b c).2 calls).2).
Proof.
  cbn [append_all]. destruct (append_call b c) as [m b']. cbn [fst snd].
  by destruct (append_all b' calls).
Qed.

Lemma accepted_cons c calls (m : option LegacyRecordMetadata) ms :
  accepted (c :: calls) (m :: ms)
  = match m with
    | Some m' => (c, m') :: accepted calls ms
    | None => accepted calls ms
    end.
Proof. unfold accepted. by destruct m. Qed.

Lemma append_all_spec b calls :
  ∃ cs, accepted calls (append_all b calls).1 = (λ c, (c, metadata_of (magic b) c)) <$> cs
    ∧ (append_all b calls).2
      = with_buffer b (buffer b ++ concat (encode_call (magic b) <$> cs))
    ∧ cs ⊆ calls.
Proof.
  revert b. induction calls as [|c calls IH]; intros b.
  - exists []. split; [done |]. split; [| done].
    cbn [append_all snd fmap list_fmap concat]. rewrite app_nil_r. by destruct b.
  - rewrite append_all_cons, append_call_eq. cbn [fst snd].
    destruct (rejects b c); cbn [fst snd]; rewrite accepted_cons.
    + destruct (IH b) as (cs & Ha & Hb & Hs).
      exists cs. split; [done |]. split; [done |]. by apply list_subseteq_cons.
    + destruct (IH (with_buffer b (buffer b ++ encode_call (magic b) c)))
        as (cs & Ha & Hb & Hs).
      exists (c :: cs). rewrite Ha, Hb. split; [done |]. split.
      * unfold with_buffer. cbn [magic compression_type batch_size buffer].
        cbn [fmap list_fmap concat]. by rewrite <- !app_assoc.
      * intros x [->|Hx]%elem_of_cons; [by left | right; by apply Hs].
Qed.

End builder_facts.

Section reader_facts.
Local Open Scope Z_scope.
Implicit Types (b : LegacyRecordBatchBuilder) (c : AppendCall).

Lemma resolve_timestamp_int64 magic c :
  call_in_range c → int64 (resolve_timestamp magic (c_now c) (c_timestamp c)).
Proof.
  intros (_ & Ht & _). unfold resolve_timestamp.
  destruct (magic =? 0); [unfold int64; lia | done].
Qed.

Lemma decode_encode_call magic c rest :
  call_in_range c →
  decode_msg magic (encode_call magic c ++ rest) = Some (raw_call magic c, rest).
Proof.
  intros Hc. pose proof (resolve_timestamp_int64 magic c Hc).
  destruct Hc as (Ho & _ & Hkv).
  unfold encode_call, raw_call. by apply decode_encode_msg; [| lia | |].
Qed.

Lemma length_concat_encode_call magic (cs : list AppendCall) :
  (length cs ≤ length (concat (encode_call magic <$> cs)))%nat.
Proof.
  induction cs as [|c cs IH]; cbn [fmap list_fmap concat length]; [lia |].
  rewrite length_app.
  pose proof (encode_msg_nonempty magic (c_offset c) 0
    (resolve_timestamp magic (c_now c) (c_timestamp c)) (c_key c) (c_value c)) as Hne.
  fold (encode_call magic c) in Hne.
  destruct (encode_call magic c); [done | cbn [length]; lia].
Qed.

Lemma decode_msgs_concat magic (cs : list AppendCall) (fuel : nat) :
  Forall call_in_range cs → (length cs ≤ fuel)%nat →
  decode_msgs fuel magic (concat (encode_call magic <$> cs))
  = Some (raw_call magic <$> cs).
Proof.
  revert fuel. induction cs as [|c cs IH]; intros fuel Hcs Hfuel.
  - by destruct fuel.
  - apply Forall_cons in Hcs as [Hc Hcs].
    destruct fuel as [|fuel]; [simpl in Hfuel; lia |].
    cbn [fmap list_fmap concat].
    rewrite (decode_msgs_cons fuel magic _ _ (raw_call magic c)).
    + rewrite IH; [done | done | simpl in Hfuel; lia].
    + apply encode_msg_nonempty.
    + by apply decode_encode_call.
Qed.

Lemma to_record_raw_call magic c :
  to_record magic None (raw_call magic c) = expected_record magic c.
Proof.
  unfold to_record, raw_call, raw_record, expected_record, resolve_timestamp.
  simpl. by destruct (magic =? 0).
Qed.

Lemma validate_crc_raw_call magic c : validate_crc (raw_call magic c) = true.
Proof. unfold validate_crc, raw_call, raw_record. apply Z.eqb_refl. Qed.

Lemma codec_bits (codec : Z) :
  1 ≤ codec ≤ 7 →
  Z.land codec CODEC_MASK = codec ∧ Z.land codec TIMESTAMP_TYPE_MASK = 0.
Proof.
  intros Hc.
  assert (codec = 1 ∨ codec = 2 ∨ codec = 3 ∨ codec = 4 ∨ codec = 5
          ∨ codec = 6 ∨ codec = 7) as Hcases by lia.
  repeat destruct Hcases as [->|Hcases]; try done. by subst.
Qed.

Lemma to_record_wrapped magic codec w_ts w_val c :
  1 ≤ codec ≤ 7 →
  to_record magic (Some (raw_record magic 0 codec w_ts None w_val)) (raw_call magic c)
  = expected_record magic c.
Proof.
  intros [_ Hb]%codec_bits.
  unfold to_record, raw_call, raw_record, expected_record, resolve_timestamp.
  cbn [r_attributes r_timestamp r_offset r_key r_value r_crc]. rewrite Hb.
  simpl. by destruct (magic =? 0).
Qed.

End reader_facts.

Section roundtrip.
Local Open Scope Z_scope.
Context `{CodecLaws}.

Lemma fst_tabulate {A B} (f : A → B) (l : list A) :
  ((λ x, (x, f x)) <$> l).*1 = l.
Proof. rewrite <- list_fmap_compose. apply list_fmap_id. Qed.

(** Reading the built buffer back yields the accepted calls, in order. *)
Lemma read_build_accepted magic codec max (calls : list AppendCall) :
  0 ≤ codec ≤ 7 → Forall call_in_range calls →
  (codec ≠ 0 →
   Z.of_nat (length (compress codec
                       (buffer (append_all (new magic codec max) calls).2)))
   < 2 ^ 31 - 22) →
  read magic (build (append_all (new magic codec max) calls).2)
  = Some (expected_record magic
            <$> (accepted calls (append_all (new magic codec max) calls).1).*1).
Proof.
  intros Hcodec Hcalls Hfit.
  destruct (append_all_spec (new magic codec max) calls) as (cs & Ha & Hb & Hs).
  rewrite Ha, fst_tabulate. rewrite Hb in Hfit |- *. clear Ha Hb.
  assert (Forall call_in_range cs) as Hcs.
  { apply Forall_forall. intros c Hc. apply Hs in Hc.
    by apply (proj1 (Forall_forall _ _) Hcalls). }
  unfold build, with_buffer, new in *.
  cbn [LegacyRecords.compression_type LegacyRecords.magic LegacyRecords.buffer app] in *.
  set (buf := concat (encode_call magic <$> cs)) in *.
  pose proof (decode_msgs_concat magic cs (length buf) Hcs
                (length_concat_encode_call magic cs)) as Hdec.
  fold buf in Hdec.
  assert (to_record magic None <$> (raw_call magic <$> cs)
          = expected_record magic <$> cs) as Hplain.
  { rewrite <- list_fmap_compose. apply list_fmap_ext. intros _ c _.
    apply to_record_raw_call. }
  destruct (Z.eqb_spec codec 0) as [->|Hne].
  - unfold read. destruct buf as [|b0 buf'] eqn:Ebuf.
    + destruct cs as [|c cs']; [done |].
      exfalso. subst buf. cbn [fmap list_fmap concat] in Ebuf.
      apply app_eq_nil in Ebuf as [E _]. by apply encode_msg_nonempty in E.
    + rewrite <- Ebuf in *. destruct cs as [|c cs']; [by subst buf |].
      apply Forall_cons in Hcs as [Hc Hcs].
      unfold buf at 1. cbn [fmap list_fmap concat].
      rewrite (decode_encode_call magic c _ Hc).
      cbn [r_attributes raw_call raw_record].
      change (Z.land 0 CODEC_MASK =? 0) with true. cbn iota.
      by rewrite Hdec, Hplain.
  - specialize (Hfit Hne). assert (1 ≤ codec ≤ 7) as Hc17 by lia.
    destruct (codec_bits codec Hc17) as [Hm _].
    set (data := compress codec buf) in *.
    unfold read.
    pose proof (encode_msg_nonempty magic 0 codec 0 None (Some data)) as Hwne.
    destruct ((encode_msg magic 0 codec 0 None (Some data)).1) as [|w0 wrest] eqn:Ew;
      [done |].
    rewrite <- Ew. rewrite <- (app_nil_r (encode_msg _ _ _ _ _ _).1).
    rewrite decode_encode_msg;
      [| unfold int64; lia | lia | unfold int64; lia | cbn [bytes_size]; lia].
    cbn [r_attributes r_value raw_record]. rewrite Hm.
    destruct (Z.eqb_spec codec 0); [done |].
    step_bind. unfold data at 1. rewrite decompress_compress.
    rewrite Hdec. f_equal.
    rewrite <- list_fmap_compose. apply list_fmap_ext. intros _ c _.
    cbn [compose]. by apply to_record_wrapped.
Qed.

End roundtrip.

(** ** A run-length codec *)

Section rle_facts.

Lemma rle_runs_bounded (data : bytes) : Forall (λ run, run.1 ≤ 255) (rle_runs data).
Proof.
  induction data as [|b data IH]; cbn [rle_runs]; [constructor |].
  destruct (rle_runs data) as [|[n b'] runs]; [repeat constructor; simpl; lia |].
  apply Forall_cons in IH as [Hn IH]. simpl in Hn.
  destruct (decide (b = b' ∧ n < 255)) as [[_ Hlt]|_].
  - constructor; [simpl; lia | done].
  - constructor; [simpl; lia |]. by constructor.
Qed.

Lemma rle_expand_runs (data : bytes) : rle_expand (rle_runs data) = data.
Proof.
  unfold rle_expand. induction data as [|b data IH]; cbn [rle_runs]; [done |].
  destruct (rle_runs data) as [|[n b'] runs].
  - simpl in *. by rewrite <- IH.
  - destruct (decide (b = b' ∧ n < 255)) as [[-> _]|_].
    + rewrite bind_cons in IH |- *. cbn [fst snd replicate app] in *. by rewrite IH.
    + rewrite bind_cons. cbn [fst snd replicate app]. by rewrite IH.
Qed.

Lemma rle_decompress_encode (runs : list (nat * byte)) :
  Forall (λ run, run.1 ≤ 255) runs →
  rle_decompress (rle_encode runs) = Some (rle_expand runs).
Proof.
  unfold rle_encode, rle_expand. induction 1 as [|[n b] runs Hn _ IH]; [done |].
  rewrite !bind_cons. cbn [fst snd app rle_decompress] in *. rewrite IH.
  rewrite Z_of_byte_of_Z, Z.mod_small, Nat2Z.id by lia. done.
Qed.

Global Instance rle_codec_laws : @CodecLaws rle_codec.
Proof.
  intros c data. cbn [decompress compress rle_codec]. unfold rle_compress.
  rewrite rle_decompress_encode by apply rle_runs_bounded.
  by rewrite rle_expand_runs.
Qed.

Global Instance no_codec_laws : @CodecLaws no_codec.
Proof. by intros c data. Qed.

End rle_facts.

(** ** The claims about the record batch codec *)

Section codec_claims.
Local Open Scope Z_scope.
Context `{CodecLaws}.

Lemma read_build_decoded magic codec max (calls : list AppendCall) :
  0 ≤ codec ≤ 7 → Forall call_in_range calls →
  (codec ≠ 0 →
   Z.of_nat (length (compress codec
                       (buffer (append_all (new magic codec max) calls).2)))
   < 2 ^ 31 - 22) →
  ∃ recs,
    read magic (build (append_all (new magic codec max) calls).2) = Some recs
    ∧ Forall2 (decoded_as magic)
        (accepted calls (append_all (new magic codec max) calls).1) recs.
Proof.
  intros Hcodec Hcalls Hfit. eexists. split; [by apply read_build_accepted |].
  destruct (append_all_spec (new magic codec max) calls) as (cs & -> & _ & _).
  rewrite fst_tabulate. clear. induction cs as [|c cs IH]; [constructor |].
  cbn [fmap list_fmap]. constructor; [| done].
  unfold decoded_as, expected_record, metadata_of, new.
  cbn [fst snd offset key value timestamp checksum m_offset m_crc m_timestamp
       LegacyRecords.magic].
  done.
Qed.

(** C4, as the model has it: the records accepted by a builder, with
    arguments that fit the fields of the layout, are read back from the
    built buffer in order, each with its offset, key and value, with its
    timestamp in format 1 (the clock reading where the caller passed none),
    and with the checksum that the metadata reports and that recomputing
    over the decoded fields gives. *)
Theorem read_build_roundtrip magic codec max (calls : list AppendCall) :
  0 ≤ codec ≤ 7 → Forall call_in_range calls →
  (codec ≠ 0 →
   Z.of_nat (length (compress codec
                       (buffer (append_all (new magic codec max) calls).2)))
   < 2 ^ 31 - 22) →
  ∃ recs,
    read magic (build (append_all (new magic codec max) calls).2) = Some recs
    ∧ Forall2 (decoded_as magic)
        (accepted calls (append_all (new magic codec max) calls).1) recs.
Proof. apply read_build_decoded. Qed.

(** C6, as the model has it: the first append to an empty batch is
    accepted whatever the format version, codec and maximum size; without
    compression the built buffer is the encoded record, longer than the
    value. *)
Theorem first_append_accepted now magic codec max offset timestamp key value :
  is_Some (append now (new magic codec max) offset timestamp key value).1
  ∧ Z.of_nat (length (build (append now (new magic 0 max) offset timestamp key value).2))
    = size_in_bytes magic key value
  ∧ bytes_size value
    < Z.of_nat (length (build (append now (new magic 0 max) offset timestamp key value).2)).
Proof.
  unfold append, new, size, build.
  cbn [LegacyRecords.magic LegacyRecords.buffer LegacyRecords.batch_size
       LegacyRecords.compression_type length].
  change (Z.of_nat 0 =? 0) with true. cbn [negb andb].
  destruct (encode_msg magic offset 0 (resolve_timestamp magic now timestamp) key value)
    as [msg crc] eqn:E.
  cbn [fst snd LegacyRecords.compression_type LegacyRecords.buffer app].
  change (0 =? 0) with true. cbn iota.
  split; [by eexists |].
  pose proof (length_encode_msg magic offset 0
                (resolve_timestamp magic now timestamp) key value) as Hlen.
  rewrite E in Hlen. cbn [fst] in Hlen. split; [done |].
  rewrite Hlen. unfold size_in_bytes, LOG_OVERHEAD.
  pose proof (record_overhead_range magic). pose proof (bytes_size_nonneg key). lia.
Qed.

(** C7: an append to a non-empty builder that would exceed the maximum
    batch size returns the absent result and leaves the builder as it was;
    the buffer built afterwards reads back as the records accepted before. *)
Theorem append_rejected_unchanged magic codec max (calls : list AppendCall) b
    now offset timestamp key value :
  b = (append_all (new magic codec max) calls).2 →
  size b ≠ 0 →
  batch_size b < size b + size_in_bytes (LegacyRecords.magic b) key value →
  append now b offset timestamp key value = (None, b)
  ∧ build (append now b offset timestamp key value).2 = build b
  ∧ (0 ≤ codec ≤ 7 → Forall call_in_range calls →
     (codec ≠ 0 → Z.of_nat (length (compress codec (buffer b))) < 2 ^ 31 - 22) →
     ∃ recs,
       read magic (build (append now b offset timestamp key value).2) = Some recs
       ∧ Forall2 (decoded_as magic)
           (accepted calls (append_all (new magic codec max) calls).1) recs).
Proof.
  intros -> Hsize Hmax.
  set (b := (append_all (new magic codec max) calls).2) in *.
  assert (append now b offset timestamp key value = (None, b)) as ->.
  { unfold append. destruct (Z.eqb_spec (size b) 0); [done |].
    by destruct (Z.ltb_spec (batch_size b)
                   (size b + size_in_bytes (LegacyRecords.magic b) key value)); [| lia]. }
  split; [done |]. split; [done |].
  intros Hcodec Hcalls Hfit. by apply read_build_decoded.
Qed.

End codec_claims.

(** ** The fixtures of the tests *)

Section fixtures.
Local Open Scope Z_scope.

(** The check value of CRC-32. *)
Example crc32_check : crc32 (list_byte_of_string "123456789") = 0xCBF43926.
Proof. vm_compute. reflexivity. Qed.

(** [test_legacy_batch_builder_validates_arguments]: the three accepted
    appends build 119 bytes in format 1 and 95 in format 0. *)
Example build_length_three_appends :
  let calls :=
    [ {| c_now := 1700000000000; c_offset := 0; c_timestamp := Some 9999999;
         c_key := Some b_123; c_value := None |};
      {| c_now := 1700000000000; c_offset := 1; c_timestamp := None;
         c_key := None; c_value := Some b_some_string |};
      {| c_now := 1700000000000; c_offset := 5; c_timestamp := Some 9999999;
         c_key := Some b_123; c_value := None |} ] in
  length (@build no_codec (append_all (new 1 0 (1024 * 1024)) calls).2) = 119%nat
  ∧ length (@build no_codec (append_all (new 0 0 (1024 * 1024)) calls).2) = 95%nat.
Proof. vm_compute. done. Qed.

(** [test_legacy_batch_size_limit]: a first record of 2000 bytes is
    accepted by a builder of 1024 bytes, and of three records of 700 bytes
    the second and the third are rejected. *)
Example batch_size_limit :
  let call offset n :=
    {| c_now := 1700000000000; c_offset := offset; c_timestamp := None;
       c_key := None; c_value := Some (replicate n "M"%byte) |} in
  let big magic := append_all (new magic 0 1024) [call 0 2000%nat] in
  let r magic := append_all (new magic 0 1024)
                   [call 0 700%nat; call 1 700%nat; call 2 700%nat] in
  is_accepted <$> (big 0).1 = [true]
  ∧ is_accepted <$> (big 1).1 = [true]
  ∧ (2000 < length (@build no_codec (big 0%Z).2))%nat
  ∧ (2000 < length (@build no_codec (big 1%Z).2))%nat
  ∧ is_accepted <$> (r 0).1 = [true; false; false]
  ∧ is_accepted <$> (r 1).1 = [true; false; false]
  ∧ (length (@build no_codec (r 0%Z).2) < 1000)%nat
  ∧ (length (@build no_codec (r 1%Z).2) < 1000)%nat.
Proof.
  cbv zeta. split_and!; try (vm_compute; reflexivity).
  - apply Nat.ltb_lt. vm_compute. reflexivity.
  - apply Nat.ltb_lt. vm_compute. reflexivity.
  - apply Nat.ltb_lt. vm_compute. reflexivity.
  - apply Nat.ltb_lt. vm_compute. reflexivity.
Qed.

End fixtures.

Section fixture_claims.
Local Open Scope Z_scope.

(** C5, as the tests have it: the record checksum of the fixture is
    [0x831FAC85], which is [-2095076219] as a signed 32-bit value, in format
    1 and [278251978] in format 0, in the metadata of the append and in the
    record read back. *)
Theorem fixture_checksums now :
  fixture_crc now 1 = Some 0x831FAC85
  ∧ 0x831FAC85 = (-2095076219) mod 2 ^ 32
  ∧ fixture_crc now 0 = Some 278251978
  ∧ fixture_read_crc now 1 = Some [0x831FAC85]
  ∧ fixture_read_crc now 0 = Some [278251978].
Proof. split_and!; vm_compute; reflexivity. Qed.

(** C5 as stated fails: the checksum of the format 1 fixture is not
    [0xD3FFC645], and [0xD3FFC645] is not [-2095076219] as a signed 32-bit
    value either. *)
Lemma fixture_checksum_not_D3FFC645 :
  fixture_crc 0 1 ≠ Some 0xD3FFC645
  ∧ 0xD3FFC645 ≠ (-2095076219) mod 2 ^ 32
  ∧ 0xD3FFC645 - 2 ^ 32 ≠ -2095076219.
Proof. split_and!; vm_compute; discriminate. Qed.

(** C4 as stated fails: a record appended without a timestamp to a format
    1 builder reads back with the clock reading as its timestamp. *)
Lemma absent_timestamp_reads_as_clock :
  ∃ rec,
    @read no_codec 1
      (@build no_codec
         (append 5 (new 1 0 (1024 * 1024)) 0 None (Some b_test) (Some b_Super)).2)
    = Some [rec]
    ∧ timestamp rec = Some 5 ∧ timestamp rec ≠ None.
Proof. eexists. split; [vm_compute; reflexivity |]. split; done. Qed.

(** C6 as stated fails: with a codec the built buffer is the wrapper
    around the compressed records, here shorter than the value. *)
Lemma compressed_build_shorter_than_value :
  let r := append 5 (new 1 CODEC_GZIP 1024) 0 None None
             (Some (replicate 2000 "M"%byte)) in
  is_accepted r.1 = true
  ∧ (length (@build rle_codec r.2) < length (replicate 2000 "M"%byte))%nat
  ∧ option_map (map value) (@read rle_codec 1 (@build rle_codec r.2))
    = Some [Some (replicate 2000 "M"%byte)].
Proof.
  cbv zeta. split; [vm_compute; reflexivity |]. split.
  - apply Nat.ltb_lt. vm_compute. reflexivity.
  - vm_compute. reflexivity.
Qed.

Ltac Z_bounds := vm_compute; repeat split; (discriminate || reflexivity).

Lemma roundtrip_calls_in_range : Forall call_in_range roundtrip_calls.
Proof. repeat constructor; Z_bounds. Defined.

Lemma read_build_roundtrip_witness :
  ∃ recs,
    @read rle_codec 1
      (@build rle_codec (append_all (new 1 CODEC_GZIP (1024 * 1024)) roundtrip_calls).2)
    = Some recs
    ∧ Forall2 (decoded_as 1)
        (accepted roundtrip_calls
           (append_all (new 1 CODEC_GZIP (1024 * 1024)) roundtrip_calls).1) recs.
Proof.
  apply (@read_build_roundtrip rle_codec rle_codec_laws 1 CODEC_GZIP (1024 * 1024)
           roundtrip_calls).
  - Z_bounds.
  - exact roundtrip_calls_in_range.
  - intros _. Z_bounds.
Defined.

Lemma append_rejected_unchanged_witness :
  append 5 (append_all (new 1 0 1024) [limit_call 0]).2 1 None None
    (Some (replicate 700 "M"%byte))
  = (None, (append_all (new 1 0 1024) [limit_call 0]).2)
  ∧ @build no_codec
      (append 5 (append_all (new 1 0 1024) [limit_call 0]).2 1 None None
         (Some (replicate 700 "M"%byte))).2
    = @build no_codec (append_all (new 1 0 1024) [limit_call 0]).2
  ∧ ∃ recs,
      @read no_codec 1
        (@build no_codec
           (append 5 (append_all (new 1 0 1024) [limit_call 0]).2 1 None None
              (Some (replicate 700 "M"%byte))).2)
      = Some recs
      ∧ Forall2 (decoded_as 1)
          (accepted [limit_call 0] (append_all (new 1 0 1024) [limit_call 0]).1) recs.
Proof.
  destruct (@append_rejected_unchanged no_codec no_codec_laws 1 0 1024 [limit_call 0]
              (append_all (new 1 0 1024) [limit_call 0]).2
              5 1 None None (Some (replicate 700 "M"%byte)))
    as (Happend & Hbuild & Hread).
  - reflexivity.
  - vm_compute. discriminate.
  - Z_bounds.
  - split; [exact Happend |]. split; [exact Hbuild |]. apply Hread.
    + Z_bounds.
    + repeat constructor; Z_bounds.
    + intros Hne. by destruct Hne.
Defined.

End fixture_claims.


(** ** Further properties of the codec model *)

Section codec_more.
Local Open Scope Z_scope.

(** X11: the size bookkeeping of the builder: an accepted append grows
    [size()] by exactly [size_in_bytes] of its arguments, which is also the
    size in its metadata; a rejected append leaves [size()] as it was. *)
Theorem append_size_accounting now b offset timestamp key value :
  size (append now b offset timestamp key value).2
  = size b + (if is_accepted (append now b offset timestamp key value).1
              then size_in_bytes (magic b) key value else 0)
  ∧ ∀ meta, (append now b offset timestamp key value).1 = Some meta →
            m_size meta = size_in_bytes (magic b) key value.
Proof.
  unfold append.
  destruct (negb (size b =? 0) && (batch_size b <? size b + size_in_bytes (magic b) key value)).
  - cbn [fst snd is_accepted]. split; [lia | done].
  - pose proof (length_encode_msg (magic b) offset 0
                  (resolve_timestamp (magic b) now timestamp) key value) as Hlen.
    destruct (encode_msg (magic b) offset 0
                (resolve_timestamp (magic b) now timestamp) key value) as [msg crc].
    cbn [fst snd is_accepted] in *. split.
    + unfold size. cbn [buffer]. rewrite length_app. lia.
    + by intros meta [= <-].
Qed.

(** X13: the metadata of an accepted append: the offset of the call; the
    timestamp of the call in format 1, the clock reading when the call had
    none, and [-1] in format 0; a size of at least 26 bytes; and a checksum
    that is an unsigned 32-bit value. *)
Theorem append_metadata now b offset timestamp key value meta :
  (append now b offset timestamp key value).1 = Some meta →
  m_offset meta = offset
  ∧ m_timestamp meta = (if magic b =? 0 then -1 else default now timestamp)
  ∧ 26 ≤ m_size meta
  ∧ 0 ≤ m_crc meta < 2 ^ 32.
Proof.
  unfold append.
  destruct (negb (size b =? 0) && (batch_size b <? size b + size_in_bytes (magic b) key value));
    [done |].
  unfold encode_msg. cbn [fst]. intros [= <-].
  cbn [m_offset m_timestamp m_size m_crc].
  split; [done |]. split; [done |]. split; [| apply crc32_range].
  unfold size_in_bytes, LOG_OVERHEAD.
  pose proof (record_overhead_range (magic b)).
  pose proof (bytes_size_nonneg key). pose proof (bytes_size_nonneg value). lia.
Qed.

(** X14: without compression the built buffer is as long as the sizes in
    the metadata of the accepted appends add up to; a rejected append adds
    nothing. *)
Theorem build_length_sum `{Codec} magic max (calls : list AppendCall) :
  Z.of_nat (length (build (append_all (new magic 0 max) calls).2))
  = foldr Z.add 0
      ((λ cm, m_size cm.2) <$> accepted calls (append_all (new magic 0 max) calls).1).
Proof.
  destruct (append_all_spec (new magic 0 max) calls) as (cs & -> & -> & _).
  unfold build, with_buffer, new.
  cbn [LegacyRecords.compression_type LegacyRecords.magic LegacyRecords.buffer app].
  change (0 =? 0) with true. cbn iota.
  rewrite <- list_fmap_compose.
  induction cs as [|c cs IH]; [done |].
  cbn [fmap list_fmap concat foldr compose snd]. rewrite length_app, Nat2Z.inj_add, IH.
  f_equal. unfold encode_call, metadata_of. cbn [m_size].
  apply length_encode_msg.
Qed.

Lemma decode_msg_frame magic offset crc attributes timestamp key value rest :
  int64 offset → 0 ≤ crc < 2 ^ 32 → - 128 ≤ attributes < 128 → int64 timestamp →
  bytes_size key + bytes_size value < 2 ^ 31 - 22 →
  decode_msg magic
    (pack_be 8 offset
     ++ pack_be 4 (4 + Z.of_nat (length (encode_body magic attributes timestamp key value)))
     ++ pack_be 4 crc ++ encode_body magic attributes timestamp key value ++ rest)
  = Some ({| r_offset := offset; r_crc := crc; r_attributes := attributes;
             r_timestamp := if magic =? 0 then unpack_be [] else timestamp;
             r_key := key; r_value := value;
             r_body := encode_body magic attributes timestamp key value |}, rest).
Proof.
  intros Ho Hcrc Ha Ht Hkv. unfold decode_msg.
  pose proof (bytes_size_nonneg key). pose proof (bytes_size_nonneg value).
  pose proof (record_overhead_range magic).
  set (body := encode_body magic attributes timestamp key value).
  pose proof (length_encode_body magic attributes timestamp key value) as Hlen.
  fold body in Hlen.
  rewrite (split_at_app 8) by apply length_pack_be. step_bind.
  rewrite (split_at_app 4) by apply length_pack_be. step_bind.
  rewrite !unpack_be_pack_be by field_range.
  destruct (Z.ltb_spec (4 + Z.of_nat (length body)) 4); [lia |].
  rewrite app_assoc, (split_at_app (Z.to_nat (4 + Z.of_nat (length body))))
    by (rewrite length_app, length_pack_be; lia).
  step_bind. rewrite take_app_length', drop_app_length' by by rewrite length_pack_be.
  rewrite unpack_ube_pack_be_small by field_range.
  unfold body. rewrite decode_encode_body by (done || lia). done.
Qed.

Lemma patch_frame (h : bytes) (a : byte) (t rest : bytes) ts :
  length h = 17%nat → length t = 8%nat →
  patch_log_append_time (h ++ [a] ++ t ++ rest) ts
  = Some (h ++ [byte_of_Z (Z.lor (Z_of_byte a) TIMESTAMP_TYPE_MASK)]
          ++ pack_be 8 ts ++ rest).
Proof.
  intros Hh Ht.
  do 17 (destruct h as [|? h]; [done |]). destruct h; [| done].
  do 8 (destruct t as [|? t]; [done |]). destruct t; [| done].
  unfold patch_log_append_time, ATTRIBUTES_OFFSET, TIMESTAMP_OFFSET.
  cbn [app lookup list_lookup insert list_insert].
  rewrite decide_True by (cbn [length]; lia).
  done.
Qed.

Lemma pack_be_1 (z : Z) : pack_be 1 z = [byte_of_Z z].
Proof.
  change (pack_be 1 z) with [byte_of_Z (Z.shiftr z 0)]. by rewrite Z.shiftr_0_r.
Qed.

Lemma codec_bits_patched (codec : Z) :
  1 ≤ codec ≤ 7 →
  Z.land (Z.lor codec TIMESTAMP_TYPE_MASK) CODEC_MASK = codec
  ∧ Z.land (Z.lor codec TIMESTAMP_TYPE_MASK) TIMESTAMP_TYPE_MASK = 8
  ∧ 9 ≤ Z.lor codec TIMESTAMP_TYPE_MASK ≤ 15.
Proof.
  intros Hc.
  assert (codec = 1 ∨ codec = 2 ∨ codec = 3 ∨ codec = 4 ∨ codec = 5
          ∨ codec = 6 ∨ codec = 7) as Hcases by lia.
  repeat destruct Hcases as [->|Hcases]; try (vm_compute; split_and!; congruence).
  subst. vm_compute. split_and!; congruence.
Qed.

Lemma to_record_log_append codec w_crc w_body ts w_val c :
  1 ≤ codec ≤ 7 →
  log_append_as ts (c, metadata_of 1 c)
    (to_record 1
       (Some {| r_offset := 0; r_crc := w_crc;
                r_attributes := Z.lor codec TIMESTAMP_TYPE_MASK;
                r_timestamp := ts; r_key := None; r_value := w_val;
                r_body := w_body |})
       (raw_call 1 c)).
Proof.
  intros (_ & Hb & _)%codec_bits_patched.
  unfold log_append_as, to_record, raw_call, raw_record.
  cbn [fst snd offset key value timestamp timestamp_type
       r_attributes r_timestamp r_offset r_key r_value r_crc].
  rewrite Hb. done.
Qed.

Context `{CodecLaws}.

(** X12: what [test_read_log_append_time] does, for any accepted records:
    after setting the log-append bit in the attributes of the compressed
    wrapper of a format 1 buffer and overwriting its timestamp, every record
    read back still has its own offset, key and value, and has the patched
    timestamp and the timestamp type 1. *)
Theorem read_log_append_time codec max (calls : list AppendCall) expected_timestamp :
  1 ≤ codec ≤ 7 → Forall call_in_range calls → int64 expected_timestamp →
  Z.of_nat (length (compress codec (buffer (append_all (new 1 codec max) calls).2)))
  < 2 ^ 31 - 22 →
  ∃ patched recs,
    patch_log_append_time (build (append_all (new 1 codec max) calls).2)
      expected_timestamp = Some patched
    ∧ read 1 patched = Some recs
    ∧ Forall2 (log_append_as expected_timestamp)
        (accepted calls (append_all (new 1 codec max) calls).1) recs.
Proof.
  intros Hcodec Hcalls Hts Hfit.
  destruct (append_all_spec (new 1 codec max) calls) as (cs & Ha & Hb & Hs).
  rewrite Ha. rewrite Hb in Hfit |- *. clear Ha Hb.
  assert (Forall call_in_range cs) as Hcs.
  { apply Forall_forall. intros c Hc. apply Hs in Hc.
    by apply (proj1 (Forall_forall _ _) Hcalls). }
  unfold build, with_buffer, new in *.
  cbn [LegacyRecords.compression_type LegacyRecords.magic LegacyRecords.buffer app] in *.
  destruct (Z.eqb_spec codec 0) as [->|_]; [lia |].
  set (buf := concat (encode_call 1 <$> cs)) in *.
  set (data := compress codec buf) in *.
  pose proof (decode_msgs_concat 1 cs (length buf) Hcs
                (length_concat_encode_call 1 cs)) as Hdec.
  fold buf in Hdec.
  destruct (codec_bits_patched codec Hcodec) as (Hm & Hb & Hrange).
  set (body := encode_body 1 codec 0 None (Some data)).
  set (body' := encode_body 1 (Z.lor codec TIMESTAMP_TYPE_MASK) expected_timestamp
                  None (Some data)).
  assert (length body' = length body) as Hlen.
  { apply Nat2Z.inj. unfold body, body'. by rewrite !length_encode_body. }
  exists (pack_be 8 0 ++ pack_be 4 (4 + Z.of_nat (length body'))
          ++ pack_be 4 (crc32 body) ++ body' ++ []).
  eexists. split; [| split].
  - unfold encode_msg. fold body. cbn [fst]. rewrite Hlen.
    set (n := 4 + Z.of_nat (length body)). set (crc := crc32 body).
    unfold body, body', encode_body. change (1 =? 0) with false. cbn iota.
    rewrite !pack_be_1.
    transitivity (patch_log_append_time
      ((pack_be 8 0 ++ pack_be 4 n ++ pack_be 4 crc ++ [byte_of_Z 1])
       ++ [byte_of_Z codec] ++ pack_be 8 0
       ++ (encode_bytes None ++ encode_bytes (Some data))) expected_timestamp).
    { f_equal; by rewrite <- ?app_assoc. }
    rewrite patch_frame by (by rewrite ?length_app, ?length_pack_be).
    rewrite Z_of_byte_of_Z, Z.mod_small by lia.
    f_equal. rewrite app_nil_r. by rewrite <- !app_assoc.
  - unfold read.
    destruct (pack_be 8 0 ++ pack_be 4 (4 + Z.of_nat (length body'))
              ++ pack_be 4 (crc32 body) ++ body' ++ []) as [|b0 rest] eqn:E.
    { exfalso. apply (f_equal length) in E.
      rewrite length_app, length_pack_be in E. done. }
    rewrite <- E. unfold body'.
    rewrite decode_msg_frame;
      [| unfold int64; lia | apply crc32_range | lia | done | cbn [bytes_size]; lia].
    cbn [r_attributes r_value]. rewrite Hm.
    destruct (Z.eqb_spec codec 0); [lia |].
    step_bind. unfold data at 1. rewrite decompress_compress.
    rewrite Hdec. reflexivity.
  - rewrite <- list_fmap_compose. clear -Hcodec.
    induction cs as [|c cs IH]; [constructor |].
    cbn [fmap list_fmap]. constructor; [| apply IH].
    change (1 =? 0) with false. cbn iota. by apply to_record_log_append.
Qed.

End codec_more.

Section codec_more_witnesses.
Local Open Scope Z_scope.

Ltac Z_facts := vm_compute; repeat split; (discriminate || reflexivity).

Lemma read_log_append_time_witness :
  ∃ patched recs,
    patch_log_append_time
      (@build rle_codec (append_all (new 1 CODEC_GZIP (1024 * 1024)) roundtrip_calls).2)
      10000000 = Some patched
    ∧ @read rle_codec 1 patched = Some recs
    ∧ Forall2 (log_append_as 10000000)
        (accepted roundtrip_calls
           (append_all (new 1 CODEC_GZIP (1024 * 1024)) roundtrip_calls).1) recs.
Proof.
  apply (@read_log_append_time rle_codec rle_codec_laws CODEC_GZIP (1024 * 1024)
           roundtrip_calls 10000000).
  - Z_facts.
  - repeat constructor; Z_facts.
  - Z_facts.
  - Z_facts.
Defined.

End codec_more_witnesses.

Lemma append_metadata_witness :
  m_offset (metadata_of 1 (limit_call 0)) = 0%Z
  ∧ m_timestamp (metadata_of 1 (limit_call 0))
    = (if (magic (new 1 0 1024) =? 0)%Z then (-1)%Z else default 5%Z None)
  ∧ (26 ≤ m_size (metadata_of 1 (limit_call 0)))%Z
  ∧ (0 ≤ m_crc (metadata_of 1 (limit_call 0)) < 2 ^ 32)%Z.
Proof.
  apply (append_metadata 5 (new 1 0 1024) 0 None None
           (Some (replicate 700 "M"%byte)) (metadata_of 1 (limit_call 0))).
  vm_compute. reflexivity.
Defined.
